(** * Two-phase locking core of the transactional key-value store (hw4/student.py)

    A shallow embedding of the [Lock] state machine, the per-transaction
    [TransactionHandler] and the [TransactionCoordinator] deadlock detector,
    followed by the properties of the specification that concern them.

    Modelling conventions.
    - A [TransactionHandler] object is identified by its address [tid]
      (Python compares handlers with [in] / [is], i.e. by identity); its
      mutable fields live in a heap [tid -> TransactionHandler].
    - The shared lock table is a Python [dict]; it is kept as an association
      list.  Lookups and updates go by key.  The order of the list stands
      for the order in which [items()] walks the dictionary; that a new key
      goes last is the insertion order of recent interpreters, an older one
      walks by hash, and no statement below relies on where a new key goes
      except the list of keys in [perform_put_spec].
    - A Python [None] result is [None : option _]; an uncaught Python
      exception is [Err]. *)

From Stdlib Require Import ZArith Lia.
From stdpp Require Import base option list strings gmap.

Open Scope Z_scope.
Open Scope nat_scope.
Open Scope string_scope.
Open Scope list_scope.

(** ** Values *)

Definition key := string.
Definition value := string.
(** Address of a [TransactionHandler] object. *)
Definition tid := nat.

(** [Lock.ExclusiveLock] and [Lock.SharedLock]. *)
Inductive Mode := ExclusiveLock | SharedLock.

Definition mode_is (a b : Mode) : bool :=
  match a, b with
  | ExclusiveLock, ExclusiveLock | SharedLock, SharedLock => true
  | _, _ => false
  end.

(** [self.mode is m] where [self.mode] may be [None]. *)
Definition omode_is (a : option Mode) (b : Mode) : bool :=
  match a with Some a' => mode_is a' b | None => false end.

(** [class RequestLock]: an item of a lock's request queue.  Its fields
    [transaction] and [mode] carry the prefix [rl_], [mode] being the name of
    a field of [Lock] too. *)
Record RequestLock := mkRequestLock {
  rl_transaction : tid;
  rl_mode : Mode
}.

(** [class Lock]. [request_queue] starts as [None] and becomes a list on the
    first queued request. *)
Record Lock := mkLock {
  transactions : list tid;
  mode : option Mode;
  request_queue : option (list RequestLock)
}.

(** [Lock.__init__(self, transaction, mode, request_queue=None)]. *)
Definition Lock_init (transaction : tid) (m : Mode)
    (rq : option (list RequestLock)) : Lock :=
  {| transactions := [transaction]; mode := Some m; request_queue := rq |}.

(** [x in l] on a list of handlers. *)
Fixpoint inb (t : tid) (l : list tid) : bool :=
  match l with
  | [] => false
  | u :: l' => if Nat.eqb u t then true else inb t l'
  end.

(** [l.remove(x)]: drops the first occurrence (the callers test [x in l]
    first, so the [ValueError] of a missing element never arises). *)
Fixpoint list_remove (t : tid) (l : list tid) : list tid :=
  match l with
  | [] => []
  | u :: l' => if Nat.eqb u t then l' else u :: list_remove t l'
  end.

(** The queue as a list, [None] read as empty (both are falsy in Python). *)
Definition queue_of (l : Lock) : list RequestLock :=
  match request_queue l with Some q => q | None => [] end.

Definition first_current_transaction (l : Lock) : option tid :=
  match transactions l with
  | [] => None
  | t :: _ => Some t
  end.

Definition hold_lock (l : Lock) (t : tid) (m : Mode) : bool :=
  inb t (transactions l) && omode_is (mode l) m.

Definition can_acquire_lock (l : Lock) (t : tid) (m : Mode) : bool :=
  if Nat.eqb (length (transactions l)) 0 then true
  else if omode_is (mode l) ExclusiveLock then inb t (transactions l)
  else if mode_is m SharedLock then true
  else if Nat.eqb (length (transactions l)) 1 && inb t (transactions l)
       then mode_is m ExclusiveLock
  else false.

(** The inner loop of [_append_request]: the first queued request of
    [transaction] whose mode is [SharedLock] gets its mode overwritten. *)
Fixpoint has_request_and_update (q : list RequestLock) (t : tid) (m : Mode)
    : bool * list RequestLock :=
  match q with
  | [] => (false, [])
  | r :: q' =>
      if Nat.eqb (rl_transaction r) t && mode_is (rl_mode r) SharedLock
      then (true, mkRequestLock (rl_transaction r) m :: q')
      else let '(b, q'') := has_request_and_update q' t m in (b, r :: q'')
  end.

Definition _append_request (l : Lock) (t : tid) (m : Mode) : Lock :=
  match request_queue l with
  | Some (r :: q) =>
      let '(b, q') := has_request_and_update (r :: q) t m in
      if b then mkLock (transactions l) (mode l) (Some q')
      else mkLock (transactions l) (mode l) (Some (q' ++ [mkRequestLock t m]))
  | _ => mkLock (transactions l) (mode l) (Some [mkRequestLock t m])
  end.

Definition _grant_request (l : Lock) : Lock :=
  match request_queue l with
  | Some (request :: q) =>
      mkLock (transactions l ++ [rl_transaction request])
             (Some (rl_mode request)) (Some q)
  | _ => l
  end.

Definition request_lock (l : Lock) (t : tid) (m : Mode) : bool * Lock :=
  if can_acquire_lock l t m then
    let trs := if inb t (transactions l) then transactions l
               else transactions l ++ [t] in
    (true, mkLock trs (Some m) (request_queue l))
  else
    let trs := if inb t (transactions l) then list_remove t (transactions l)
               else transactions l in
    (false, _append_request (mkLock trs (mode l) (request_queue l)) t m).

Definition release_lock (l : Lock) (t : tid) : Lock :=
  let trs := if inb t (transactions l) then list_remove t (transactions l)
             else transactions l in
  if Nat.eqb (length trs) 0
  then _grant_request (mkLock trs None (request_queue l))
  else mkLock trs (mode l) (request_queue l).

(** A call made on a lock object, and the lock states that calls can
    produce from a freshly constructed lock. *)
Inductive LockOp :=
| Request (t : tid) (m : Mode)
| Release (t : tid).

Definition run_op (l : Lock) (o : LockOp) : Lock :=
  match o with
  | Request t m => snd (request_lock l t m)
  | Release t => release_lock l t
  end.

Definition run_ops (l : Lock) (ops : list LockOp) : Lock :=
  fold_left run_op ops l.

(** ** Exceptions *)

Inductive exn := AttributeError | TypeError | KeyError.

Inductive res (A : Type) :=
| Ok (a : A)
| Err (e : exn).
Arguments Ok {A} a.
Arguments Err {A} e.

(** Sequencing of calls that may raise. *)
#[global] Instance res_mbind : MBind res := fun A B f r =>
  match r with Ok a => f a | Err e => Err e end.

(** ** The key-value store *)

(** Modelled from the spec: [kvstore.InMemoryKVStore] is imported by
    student.py but is not among the sources.  The spec gives its contract,
    [get(key) -> value | absent] and [put(key, value) -> unit], both
    infallible and immediately consistent; it is a dictionary whose [get]
    answers [None] for a key that was never put.  [abort] puts back prior
    values, which may be [None]. *)
Definition store_get (s : gmap key (option value)) (k : key) : option value :=
  match s !! k with Some v => v | None => None end.

(** Modelled from the spec: [put(key, value)] of the same store. *)
Definition store_put (s : gmap key (option value)) (k : key)
    (v : option value) : gmap key (option value) :=
  <[k := v]> s.

(** ** The lock table: a dictionary walked in insertion order *)

Fixpoint table_get (tb : list (key * Lock)) (k : key) : option Lock :=
  match tb with
  | [] => None
  | (k', l) :: tb' => if String.eqb k' k then Some l else table_get tb' k
  end.

(** [tb[k] = l], also the effect of mutating the lock object stored at [k]:
    an existing key keeps its entry; a new key is put last, which fixes a
    walk order that the interpreter of the source may not follow. *)
Fixpoint table_set (tb : list (key * Lock)) (k : key) (l : Lock)
    : list (key * Lock) :=
  match tb with
  | [] => [(k, l)]
  | (k', l') :: tb' =>
      if String.eqb k' k then (k', l) :: tb' else (k', l') :: table_set tb' k l
  end.

(** ** Transaction handlers *)

(** The retry closure kept in [_desired_lock]: [lambda: self.perform_put(key,
    value)] or [lambda: self.perform_get(key)]; [self], [key] and [value] are
    never rebound, so the closure is its captured data. *)
Inductive Op :=
| OpPut (k : key) (v : value)
| OpGet (k : key).

Record TransactionHandler := mkHandler {
  _acquired_locks : list key;
  _desired_lock : option (key * Mode * Op);
  _xid : Z;
  _undo_log : list (key * option value)
}.

(** [TransactionHandler.__init__]. *)
Definition TransactionHandler_init (xid : Z) : TransactionHandler :=
  {| _acquired_locks := []; _desired_lock := None; _xid := xid;
     _undo_log := [] |}.

(** Everything the handlers and the coordinator share. *)
Record State := mkState {
  lock_table : list (key * Lock);
  store : gmap key (option value);
  handlers : tid -> TransactionHandler
}.

Definition set_handler (hs : tid -> TransactionHandler) (t : tid)
    (h : TransactionHandler) : tid -> TransactionHandler :=
  fun u => if Nat.eqb u t then h else hs u.

(** [USER] and [DEADLOCK]. *)
Definition USER : Z := 0%Z.
Definition DEADLOCK : Z := 1%Z.

Definition perform_put (σ : State) (self : tid) (k : key) (v : value)
    : option string * State :=
  let lock := match table_get (lock_table σ) k with
              | Some l => l
              | None => Lock_init self ExclusiveLock None
              end in
  let '(granted, lock') := request_lock lock self ExclusiveLock in
  let tb := table_set (lock_table σ) k lock' in
  let h := handlers σ self in
  if granted then
    let old_value := store_get (store σ) k in
    let h' := mkHandler (_acquired_locks h ++ [k]) (_desired_lock h) (_xid h)
                        (_undo_log h ++ [(k, old_value)]) in
    (Some "Success",
     mkState tb (store_put (store σ) k (Some v))
             (set_handler (handlers σ) self h'))
  else
    let h' := mkHandler (_acquired_locks h)
                        (Some (k, ExclusiveLock, OpPut k v)) (_xid h)
                        (_undo_log h) in
    (None, mkState tb (store σ) (set_handler (handlers σ) self h')).

Definition perform_get (σ : State) (self : tid) (k : key)
    : option string * State :=
  let lock := match table_get (lock_table σ) k with
              | Some l => l
              | None => Lock_init self SharedLock None
              end in
  let '(granted, lock') := request_lock lock self SharedLock in
  let tb := table_set (lock_table σ) k lock' in
  let h := handlers σ self in
  if granted then
    let h' := mkHandler (_acquired_locks h ++ [k]) (_desired_lock h) (_xid h)
                        (_undo_log h) in
    let σ' := mkState tb (store σ) (set_handler (handlers σ) self h') in
    match store_get (store σ) k with
    | None => (Some "No such key", σ')
    | Some v => (Some v, σ')
    end
  else
    let h' := mkHandler (_acquired_locks h)
                        (Some (k, SharedLock, OpGet k)) (_xid h)
                        (_undo_log h) in
    (None, mkState tb (store σ) (set_handler (handlers σ) self h')).

(** The loop of [release_and_grant_locks]; a key without a lock makes
    [lock.release_lock] fail on [None]. *)
Fixpoint release_keys (tb : list (key * Lock)) (self : tid) (ks : list key)
    : res (list (key * Lock)) :=
  match ks with
  | [] => Ok tb
  | k :: ks' =>
      match table_get tb k with
      | None => Err AttributeError
      | Some lock => release_keys (table_set tb k (release_lock lock self)) self ks'
      end
  end.

Definition release_and_grant_locks (σ : State) (self : tid) : res State :=
  let h := handlers σ self in
  tb ← release_keys (lock_table σ) self (_acquired_locks h);
  Ok (mkState tb (store σ)
        (set_handler (handlers σ) self
           (mkHandler [] (_desired_lock h) (_xid h) (_undo_log h)))).

Definition commit (σ : State) (self : tid) : res (string * State) :=
  σ' ← release_and_grant_locks σ self;
  Ok ("Transaction Completed", σ').

(** [list.pop()]: the last element and the rest. *)
Fixpoint list_pop {A} (l : list A) : option (A * list A) :=
  match l with
  | [] => None
  | x :: l' =>
      match list_pop l' with
      | None => Some (x, [])
      | Some (y, r) => Some (y, x :: r)
      end
  end.

(** The [while] loop of [abort], run for at most [fuel] rounds. *)
Fixpoint undo_loop (fuel : nat) (log : list (key * option value))
    (s : gmap key (option value))
    : list (key * option value) * gmap key (option value) :=
  match fuel with
  | O => (log, s)
  | S fuel' =>
      match list_pop log with
      | None => (log, s)
      | Some ((k, v), log') => undo_loop fuel' log' (store_put s k v)
      end
  end.

Definition abort (σ : State) (self : tid) (abort_mode : Z)
    : res (string * State) :=
  let h := handlers σ self in
  let '(log, s) := undo_loop (length (_undo_log h)) (_undo_log h) (store σ) in
  let σ1 := mkState (lock_table σ) s
              (set_handler (handlers σ) self
                 (mkHandler (_acquired_locks h) (_desired_lock h) (_xid h) log)) in
  σ2 ← release_and_grant_locks σ1 self;
  if Z.eqb abort_mode USER then Ok ("User Abort", σ2)
  else Ok ("Deadlock Abort", σ2).

(** Running the retry closure. *)
Definition run_op_closure (σ : State) (self : tid) (op : Op)
    : option string * State :=
  match op with
  | OpPut k v => perform_put σ self k v
  | OpGet k => perform_get σ self k
  end.

(** Python truthiness of a result that is [None] or a string. *)
Definition truthy (v : option string) : bool :=
  match v with
  | None => false
  | Some s => negb (String.eqb s "")
  end.

Definition check_lock (σ : State) (self : tid) : res (option string * State) :=
  match _desired_lock (handlers σ self) with
  | None => Ok (None, σ)
  | Some (k, lock_mode, op) =>
      match table_get (lock_table σ) k with
      | None => Err AttributeError
      | Some lock =>
          if hold_lock lock self lock_mode then
            let '(v, σ1) := run_op_closure σ self op in
            if truthy v then
              let h := handlers σ1 self in
              Ok (v, mkState (lock_table σ1) (store σ1)
                       (set_handler (handlers σ1) self
                          (mkHandler (_acquired_locks h) None (_xid h)
                                     (_undo_log h))))
            else Ok (v, σ1)
          else Ok (None, σ)
      end
  end.

(** ** The coordinator *)

Definition get_desired_key_tranc (σ : State) (lock : Lock) : res (key * tid) :=
  match first_current_transaction lock with
  | None => Err AttributeError
  | Some t =>
      match _desired_lock (handlers σ t) with
      | None => Err TypeError
      | Some (k, _, _) => Ok (k, t)
      end
  end.

(** The body of the [try] for one table item: [Ok (Some x)] is [return x],
    [Ok None] falls through to the next item. *)
Definition detect_step (σ : State) (k : key) (lock : Lock) : res (option Z) :=
  '(desired_key, t) ← get_desired_key_tranc σ lock;
  other_lock ← match table_get (lock_table σ) desired_key with
                 | Some l => Ok l
                 | None => Err KeyError
                 end;
  '(other_desired_key, other_t) ← get_desired_key_tranc σ other_lock;
  if String.eqb other_desired_key k
  then Ok (Some (Z.min (_xid (handlers σ t)) (_xid (handlers σ other_t))))
  else Ok None.

Fixpoint detect_loop (σ : State) (items : list (key * Lock)) : option Z :=
  match items with
  | [] => None
  | (k, lock) :: items' =>
      match detect_step σ k lock with
      | Ok (Some x) => Some x
      | Ok None | Err _ => detect_loop σ items'
      end
  end.

Definition detect_deadlocks (σ : State) : option Z :=
  detect_loop σ (lock_table σ).

(** ** Predicates used by the statements *)

(** What holds of every lock that calls can produce. *)
Record lock_inv (l : Lock) : Prop := mk_lock_inv {
  inv_exclusive : mode l = Some ExclusiveLock -> length (transactions l) = 1;
  inv_empty_absent : transactions l = [] -> mode l = None;
  inv_absent_empty : mode l = None -> transactions l = [];
  inv_nodup : NoDup (transactions l);
  inv_waiting : queue_of l <> [] -> transactions l <> []
}.

(** [t] is the one and only holder. *)
Definition sole_holder (l : Lock) (t : tid) : bool :=
  match transactions l with
  | [u] => Nat.eqb u t
  | _ => false
  end.

(** The grant table of the specification (section 4.1, [canAcquire]), case
    by case as the specification words it. *)
Definition canAcquire_spec (l : Lock) (t : tid) (m : Mode) : bool :=
  match transactions l with
  | [] => true
  | _ =>
      (omode_is (mode l) ExclusiveLock && sole_holder l t)
      || (mode_is m SharedLock && omode_is (mode l) SharedLock)
      || (sole_holder l t && mode_is m ExclusiveLock)
  end.

(** The transactions waiting in the queue, in arrival order. *)
Definition waiting (l : Lock) : list tid :=
  map rl_transaction (queue_of l).

(** At most one queue entry per transaction. *)
Definition queue_unique (l : Lock) : Prop := NoDup (waiting l).

(** The transactions that a call takes out of the queue and grants. *)
Definition granted_by (l : Lock) (o : LockOp) : list tid :=
  match o with
  | Request _ _ => []
  | Release t =>
      let trs := if inb t (transactions l) then list_remove t (transactions l)
                 else transactions l in
      if Nat.eqb (length trs) 0
      then match queue_of l with r :: _ => [rl_transaction r] | [] => [] end
      else []
  end.

(** All the grants out of the queue during a run of calls, oldest first. *)
Fixpoint grant_log (l : Lock) (ops : list LockOp) : list tid :=
  match ops with
  | [] => []
  | o :: ops' => granted_by l o ++ grant_log (run_op l o) ops'
  end.

(** The two invariants of the specification (section 8) and the mutual
    exclusion they give. *)
Definition exclusive_ok (l : Lock) : Prop :=
  (mode l = Some ExclusiveLock -> length (transactions l) = 1) /\
  (transactions l = [] -> mode l = None) /\
  (forall t u, hold_lock l t ExclusiveLock = true ->
               hold_lock l u ExclusiveLock = true -> t = u) /\
  (forall t u, hold_lock l t ExclusiveLock = true ->
               u ∈ transactions l -> u = t).

(** A call of the driver on a handler. *)
Inductive Call :=
| CallPut (t : tid) (k : key) (v : value)
| CallGet (t : tid) (k : key)
| CallCommit (t : tid)
| CallAbort (t : tid) (abort_mode : Z)
| CallCheck (t : tid).

Definition run_call (σ : State) (c : Call) : res State :=
  match c with
  | CallPut t k v => Ok (snd (perform_put σ t k v))
  | CallGet t k => Ok (snd (perform_get σ t k))
  | CallCommit t => r ← commit σ t; Ok (snd r)
  | CallAbort t md => r ← abort σ t md; Ok (snd r)
  | CallCheck t => r ← check_lock σ t; Ok (snd r)
  end.

Fixpoint run_calls (σ : State) (cs : list Call) : res State :=
  match cs with
  | [] => Ok σ
  | c :: cs' => σ' ← run_call σ c; run_calls σ' cs'
  end.

(** Every lock of a table satisfies the lock invariant. *)
Definition table_inv (tb : list (key * Lock)) : Prop :=
  Forall (fun kl => lock_inv (snd kl)) tb.

(** Successive puts of one handler, each answered ['Success']. *)
Fixpoint run_puts (σ : State) (self : tid) (puts : list (key * value))
    : option State :=
  match puts with
  | [] => Some σ
  | (k, v) :: puts' =>
      match perform_put σ self k v with
      | (Some _, σ') => run_puts σ' self puts'
      | (None, _) => None
      end
  end.

(** Writing back a whole undo log, last entry first. *)
Definition undo_all (log : list (key * option value))
    (s : gmap key (option value)) : gmap key (option value) :=
  fold_left (fun s kv => store_put s (fst kv) (snd kv)) (rev log) s.

(** The handler [self] neither holds nor waits for any lock of the table,
    as is the case of a handler that has made no request yet. *)
Definition self_unknown (tb : list (key * Lock)) (self : tid) : Prop :=
  forall k l, table_get tb k = Some l ->
              (self ∉ transactions l) /\ (self ∉ waiting l).

(** The key a handler waits for, the first component of [_desired_lock]. *)
Definition desired_key (h : TransactionHandler) : option key :=
  match _desired_lock h with
  | Some (k, _, _) => Some k
  | None => None
  end.

(** The wait-for relation in the words of the specification (section 4.3):
    [a] waits for [b] when [a] is blocked on a key, that is, it desires a
    lock that it does not hold in the desired mode, and [b] is a current
    holder of that lock. *)
Definition waits_for (σ : State) (a b : tid) : Prop :=
  exists k m op l,
    _desired_lock (handlers σ a) = Some (k, m, op) /\
    table_get (lock_table σ) k = Some l /\
    hold_lock l a m = false /\
    b ∈ transactions l.

(** The chain that [detect_deadlocks] follows from the table item [(k, l)]:
    the first holder [t] of [l] desires [k2], whose lock is first held by
    [t2], which desires [k]. *)
Definition chain_closes (σ : State) (k : key) (l : Lock) (t t2 : tid) : Prop :=
  exists k2 l2,
    first_current_transaction l = Some t /\
    desired_key (handlers σ t) = Some k2 /\
    table_get (lock_table σ) k2 = Some l2 /\
    first_current_transaction l2 = Some t2 /\
    desired_key (handlers σ t2) = Some k.

(** What a granted [perform_get] answers: the stored value, or ['No such
    key'] when the store has [None] for the key. *)
Definition read_answer (s : gmap key (option value)) (k : key) : option string :=
  match store_get s k with
  | None => Some "No such key"
  | Some v => Some v
  end.

(** Every key that some handler lists among its acquired locks or records
    as desired has a lock in the table. *)
Definition keys_locked (σ : State) : Prop :=
  forall t k,
    (k ∈ _acquired_locks (handlers σ t) \/
     desired_key (handlers σ t) = Some k) ->
    table_get (lock_table σ) k <> None.

(** ** Concrete states used as examples *)

(** Nothing locked, nothing stored, every handler freshly constructed with
    its address as transaction id. *)
Definition initial_state : State :=
  mkState [] ∅ (fun t => TransactionHandler_init (Z.of_nat t)).

(** The state a run of calls ends in (the starting state if a call raised). *)
Definition state_after (σ : State) (cs : list Call) : State :=
  match run_calls σ cs with Ok σ' => σ' | Err _ => σ end.

(** Transaction 7 has written ["a"] and committed. *)
Definition committed_state : State :=
  state_after initial_state [CallPut 7 "a" "0"; CallCommit 7].

(** Then transaction 1 has written ["a"], ["b"] and ["a"] again. *)
Definition written_state : State :=
  state_after committed_state
    [CallPut 1 "a" "1"; CallPut 1 "b" "2"; CallPut 1 "a" "3"].

(** Scenario 1 of the specification just before the poll: transaction 1
    wrote ["a"], transaction 2 asked to read it and was queued, transaction
    1 committed, which granted the lock to transaction 2. *)
Definition granted_state : State :=
  state_after initial_state [CallPut 1 "a" "1"; CallGet 2 "a"; CallCommit 1].

(** The same with the empty string as the value written. *)
Definition empty_value_state : State :=
  state_after initial_state [CallPut 1 "a" ""; CallGet 2 "a"; CallCommit 1].

(** Scenario 4 of the specification: transactions 1 and 2 each hold one key
    and wait for the other's. *)
Definition deadlock_state : State :=
  state_after initial_state
    [CallPut 1 "a" "1"; CallPut 2 "b" "2"; CallGet 1 "b"; CallGet 2 "a"].



(** Transaction 7 has written ["a"] and not committed. *)
Definition held_state : State :=
  state_after initial_state [CallPut 7 "a" "0"].

(** Transaction 2 asked to write ["a"] behind the writer 1, which then
    committed: 2 holds the lock and has not polled yet. *)
Definition granted_writer_state : State :=
  state_after initial_state [CallPut 1 "a" "1"; CallPut 2 "a" "2"; CallCommit 1].

(** Transactions 1 and 2 have both read ["a"]. *)
Definition shared_state : State :=
  state_after initial_state [CallGet 1 "a"; CallGet 2 "a"].

(** Transaction 1 has written ["a"] and transaction 2 has written ["b"]. *)
Definition two_writers_state : State :=
  state_after initial_state [CallPut 1 "a" "1"; CallPut 2 "b" "2"].

(** * Properties *)

(** ** Lists of handlers *)

Lemma inb_true_iff (t : tid) (l : list tid) : inb t l = true <-> t ∈ l.
Proof.
  induction l as [|u l IH]; simpl.
  - split; [discriminate | intros H; inversion H].
  - destruct (Nat.eqb_spec u t) as [->|Hne].
    + split; [intros _; left | reflexivity].
    + rewrite IH. split; [intros H; now right |].
      intros H. apply elem_of_cons in H as [->|H]; [congruence | exact H].
Qed.

Lemma inb_false_iff (t : tid) (l : list tid) : inb t l = false <-> t ∉ l.
Proof.
  rewrite <- inb_true_iff. destruct (inb t l); split; congruence.
Qed.

Lemma list_remove_notin (t : tid) (l : list tid) :
  t ∉ l -> list_remove t l = l.
Proof.
  induction l as [|u l IH]; simpl; intros H; [reflexivity|].
  apply not_elem_of_cons in H as [Hne Hl].
  destruct (Nat.eqb_spec u t); [congruence | now rewrite IH].
Qed.

Lemma list_remove_subset (t u : tid) (l : list tid) :
  u ∈ list_remove t l -> u ∈ l.
Proof.
  induction l as [|w l IH]; simpl; [easy|].
  destruct (Nat.eqb_spec w t); intros H.
  - now right.
  - apply elem_of_cons in H as [->|H]; [left | right; auto].
Qed.

Lemma list_remove_NoDup (t : tid) (l : list tid) :
  NoDup l -> NoDup (list_remove t l).
Proof.
  induction 1 as [|w l Hw Hl IH]; simpl; [constructor|].
  destruct (Nat.eqb_spec w t); [exact Hl|].
  constructor; [|exact IH]. intros H. apply Hw. eapply list_remove_subset, H.
Qed.

Lemma list_remove_gone (t : tid) (l : list tid) :
  NoDup l -> t ∉ list_remove t l.
Proof.
  induction 1 as [|w l Hw Hl IH]; simpl; [apply not_elem_of_nil|].
  destruct (Nat.eqb_spec w t) as [->|Hne]; [exact Hw|].
  apply not_elem_of_cons. split; [congruence | exact IH].
Qed.

Lemma list_remove_length (t : tid) (l : list tid) :
  t ∈ l -> S (length (list_remove t l)) = length l.
Proof.
  induction l as [|w l IH]; simpl; intros H; [inversion H|].
  destruct (Nat.eqb_spec w t) as [->|Hne]; [reflexivity|].
  apply elem_of_cons in H as [->|H]; [congruence|].
  simpl. now rewrite IH.
Qed.

(** The holders after [if t in self.transactions: self.transactions.remove(t)]. *)
Lemma remove_if_present (t : tid) (l : list tid) :
  (if inb t l then list_remove t l else l) = list_remove t l.
Proof.
  destruct (inb t l) eqn:E; [reflexivity|].
  symmetry. apply list_remove_notin. now apply inb_false_iff.
Qed.

(** ** The lock state machine keeps its invariant *)

Lemma mode_is_eq (a b : Mode) : mode_is a b = true <-> a = b.
Proof. destruct a, b; simpl; split; congruence. Qed.

Lemma omode_is_eq (a : option Mode) (b : Mode) :
  omode_is a b = true <-> a = Some b.
Proof.
  destruct a as [a|]; simpl; [|split; congruence].
  rewrite mode_is_eq. split; congruence.
Qed.

(** A refused requester that holds the lock is never its only holder, and
    the lock is not in exclusive mode. *)
Lemma refused_holder (l : Lock) (t : tid) (m : Mode) :
  can_acquire_lock l t m = false ->
  transactions l <> [] /\
  (t ∈ transactions l ->
   2 <= length (transactions l) /\ mode l <> Some ExclusiveLock).
Proof.
  unfold can_acquire_lock. intros H.
  destruct (Nat.eqb_spec (length (transactions l)) 0) as [|Hlen];
    [discriminate|].
  split; [intros E; now rewrite E in Hlen|].
  intros Hin. apply inb_true_iff in Hin. rewrite Hin in H.
  destruct (omode_is (mode l) ExclusiveLock) eqn:Emode; [discriminate|].
  destruct m; simpl in H; [|discriminate].
  destruct (Nat.eqb_spec (length (transactions l)) 1); [discriminate|].
  split; [lia|]. intros E. apply omode_is_eq in E. congruence.
Qed.

Lemma Lock_init_inv (t : tid) (m : Mode) (rq : option (list RequestLock)) :
  lock_inv (Lock_init t m rq).
Proof.
  constructor; simpl; try congruence; try reflexivity.
  apply NoDup_singleton.
Qed.

Lemma append_request_holders (l : Lock) (t : tid) (m : Mode) :
  transactions (_append_request l t m) = transactions l /\
  mode (_append_request l t m) = mode l.
Proof.
  unfold _append_request.
  destruct (request_queue l) as [[|r q]|]; try (split; reflexivity).
  destruct (has_request_and_update (r :: q) t m) as [[] q']; split; reflexivity.
Qed.

Lemma request_lock_inv (l : Lock) (t : tid) (m : Mode) :
  lock_inv l -> lock_inv (snd (request_lock l t m)).
Proof.
  intros [Hx He Ha Hnd Hq]. unfold request_lock.
  destruct (can_acquire_lock l t m) eqn:Hcan; simpl.
  - (* granted *)
    assert (Hne : (if inb t (transactions l) then transactions l
                   else transactions l ++ [t]) <> []).
    { destruct (inb t (transactions l)) eqn:Hin.
      - apply inb_true_iff in Hin. intros E. rewrite E in Hin. inversion Hin.
      - destruct (transactions l); discriminate. }
    constructor; simpl; try congruence.
    + intros Hm. injection Hm as ->.
      unfold can_acquire_lock in Hcan.
      destruct (Nat.eqb_spec (length (transactions l)) 0) as [Hlen|Hlen].
      { destruct (transactions l); [reflexivity | discriminate]. }
      destruct (omode_is (mode l) ExclusiveLock) eqn:Emode.
      { rewrite Hcan. apply Hx. now apply omode_is_eq. }
      simpl in Hcan.
      destruct (Nat.eqb_spec (length (transactions l)) 1) as [H1|H1];
        [|discriminate].
      destruct (inb t (transactions l)); [exact H1 | discriminate].
    + destruct (inb t (transactions l)) eqn:Hin; [exact Hnd|].
      apply NoDup_app. split; [exact Hnd|]. split; [|apply NoDup_singleton].
      intros x Hx1 Hx2. apply list_elem_of_singleton in Hx2 as ->.
      apply inb_false_iff in Hin. contradiction.
  - (* refused and queued *)
    destruct (refused_holder _ _ _ Hcan) as [Hne Hheld].
    rewrite remove_if_present.
    set (l1 := mkLock _ _ _).
    destruct (append_request_holders l1 t m) as [Etr Emode].
    assert (Hne' : list_remove t (transactions l) <> []).
    { destruct (inb t (transactions l)) eqn:Hin.
      - apply inb_true_iff in Hin. destruct (Hheld Hin) as [H2 _].
        pose proof (list_remove_length _ _ Hin) as Hl.
        destruct (list_remove t (transactions l)); [simpl in Hl; lia | discriminate].
      - apply inb_false_iff in Hin. now rewrite list_remove_notin. }
    constructor; rewrite ?Etr, ?Emode; subst l1; simpl; try congruence.
    + intros Hm. destruct (inb t (transactions l)) eqn:Hin.
      * apply inb_true_iff in Hin. destruct (Hheld Hin) as [_ Hc]. contradiction.
      * apply inb_false_iff in Hin. rewrite list_remove_notin by exact Hin. auto.
    + intros Hm. exfalso. apply Hne. auto.
    + now apply list_remove_NoDup.
Qed.

Lemma release_lock_inv (l : Lock) (t : tid) :
  lock_inv l -> lock_inv (release_lock l t).
Proof.
  intros [Hx He Ha Hnd Hq]. unfold release_lock.
  rewrite remove_if_present.
  destruct (Nat.eqb_spec (length (list_remove t (transactions l))) 0)
    as [Hlen|Hlen].
  - apply nil_length_inv in Hlen. rewrite Hlen.
    unfold _grant_request; simpl.
    destruct (request_queue l) as [[|r q]|]; constructor; simpl;
      try congruence; try reflexivity; try apply NoDup_nil_2;
      try apply NoDup_singleton.
    all: unfold queue_of; simpl; congruence.
  - assert (Hne : list_remove t (transactions l) <> [])
      by (intros E; now rewrite E in Hlen).
    constructor; simpl; try congruence.
    + intros Hm. specialize (Hx Hm).
      destruct (transactions l) as [|u [|? ?]]; try discriminate.
      simpl in *. destruct (Nat.eqb u t); [congruence | reflexivity].
    + intros Hm. exfalso. apply Hne. now rewrite (Ha Hm).
    + now apply list_remove_NoDup.
Qed.

Lemma run_op_inv (l : Lock) (o : LockOp) : lock_inv l -> lock_inv (run_op l o).
Proof.
  destruct o; simpl; [apply request_lock_inv | apply release_lock_inv].
Qed.

Lemma run_ops_inv (ops : list LockOp) (l : Lock) :
  lock_inv l -> lock_inv (run_ops l ops).
Proof.
  unfold run_ops. revert l.
  induction ops as [|o ops IH]; simpl; intros l Hl; [exact Hl|].
  apply IH, run_op_inv, Hl.
Qed.

Lemma lock_inv_exclusive_ok (l : Lock) : lock_inv l -> exclusive_ok l.
Proof.
  intros [Hx He _ _ _]. unfold exclusive_ok, hold_lock.
  split; [exact Hx|]. split; [exact He|].
  assert (Hsole : forall t u, inb t (transactions l) && omode_is (mode l) ExclusiveLock = true ->
                              u ∈ transactions l -> u = t).
  { intros t u Ht Hu. apply andb_true_iff in Ht as [Ht Hm].
    apply omode_is_eq in Hm. specialize (Hx Hm).
    apply inb_true_iff in Ht.
    destruct (transactions l) as [|w [|? ?]]; try discriminate.
    apply list_elem_of_singleton in Ht, Hu. congruence. }
  split; [|exact Hsole].
  intros t u Ht Hu. symmetry. apply (Hsole t u Ht).
  apply andb_true_iff in Hu as [Hu _]. now apply inb_true_iff.
Qed.

(** ** Every lock of the table keeps the invariant *)

Lemma table_get_Forall (P : Lock -> Prop) (tb : list (key * Lock)) (k : key)
    (l : Lock) :
  Forall (fun kl => P (snd kl)) tb -> table_get tb k = Some l -> P l.
Proof.
  induction 1 as [|[k' l'] tb Hl Htb IH]; simpl; [discriminate|].
  destruct (String.eqb k' k); [|exact IH].
  intros [= <-]. exact Hl.
Qed.

Lemma table_set_Forall (P : Lock -> Prop) (tb : list (key * Lock)) (k : key)
    (l : Lock) :
  Forall (fun kl => P (snd kl)) tb -> P l ->
  Forall (fun kl => P (snd kl)) (table_set tb k l).
Proof.
  intros Htb Hl. induction Htb as [|[k' l'] tb Hl' Htb IH]; simpl.
  - constructor; [exact Hl | constructor].
  - destruct (String.eqb k' k); constructor; auto.
Qed.

Lemma perform_put_table_inv (σ : State) (self : tid) (k : key) (v : value) :
  table_inv (lock_table σ) ->
  table_inv (lock_table (snd (perform_put σ self k v))).
Proof.
  intros Htb. unfold perform_put.
  set (lock := match table_get (lock_table σ) k with
               | Some l => l | None => _ end).
  assert (Hlock : lock_inv lock).
  { subst lock. destruct (table_get (lock_table σ) k) eqn:E.
    - eapply (table_get_Forall lock_inv); eauto.
    - apply Lock_init_inv. }
  pose proof (request_lock_inv lock self ExclusiveLock Hlock) as Hreq.
  destruct (request_lock lock self ExclusiveLock) as [[] lock']; simpl in *;
    now apply table_set_Forall.
Qed.

Lemma perform_get_table_inv (σ : State) (self : tid) (k : key) :
  table_inv (lock_table σ) ->
  table_inv (lock_table (snd (perform_get σ self k))).
Proof.
  intros Htb. unfold perform_get.
  set (lock := match table_get (lock_table σ) k with
               | Some l => l | None => _ end).
  assert (Hlock : lock_inv lock).
  { subst lock. destruct (table_get (lock_table σ) k) eqn:E.
    - eapply (table_get_Forall lock_inv); eauto.
    - apply Lock_init_inv. }
  pose proof (request_lock_inv lock self SharedLock Hlock) as Hreq.
  destruct (request_lock lock self SharedLock) as [[] lock']; simpl in *.
  - destruct (store_get (store σ) k); now apply table_set_Forall.
  - now apply table_set_Forall.
Qed.

Lemma release_keys_table_inv (self : tid) (ks : list key)
    (tb tb' : list (key * Lock)) :
  table_inv tb -> release_keys tb self ks = Ok tb' -> table_inv tb'.
Proof.
  revert tb. induction ks as [|k ks IH]; simpl; intros tb Htb.
  - now intros [= <-].
  - destruct (table_get tb k) as [lock|] eqn:E; [|discriminate].
    apply IH. apply table_set_Forall; [exact Htb|].
    apply release_lock_inv. eapply (table_get_Forall lock_inv); eauto.
Qed.

Lemma release_and_grant_locks_table_inv (σ σ' : State) (self : tid) :
  table_inv (lock_table σ) -> release_and_grant_locks σ self = Ok σ' ->
  table_inv (lock_table σ').
Proof.
  intros Htb. unfold release_and_grant_locks.
  destruct (release_keys _ _ _) as [tb|] eqn:E; simpl; [|discriminate].
  intros [= <-]. simpl. eapply release_keys_table_inv; eauto.
Qed.

Lemma run_call_table_inv (σ σ' : State) (c : Call) :
  table_inv (lock_table σ) -> run_call σ c = Ok σ' ->
  table_inv (lock_table σ').
Proof.
  intros Htb. destruct c as [t k v|t k|t|t md|t]; simpl.
  - intros [= <-]. now apply perform_put_table_inv.
  - intros [= <-]. now apply perform_get_table_inv.
  - unfold commit.
    destruct (release_and_grant_locks σ t) as [σ1|] eqn:E; simpl; [|discriminate].
    intros [= <-]. eapply release_and_grant_locks_table_inv; eauto.
  - unfold abort.
    destruct (undo_loop _ _ _) as [log s].
    match goal with |- context [release_and_grant_locks ?x t] =>
      destruct (release_and_grant_locks x t) as [σ1|] eqn:E end;
      simpl; [|discriminate].
    apply release_and_grant_locks_table_inv in E; [|exact Htb].
    destruct (Z.eqb md USER); simpl; intros [= <-]; exact E.
  - unfold check_lock.
    destruct (_desired_lock (handlers σ t)) as [[[k md] op]|];
      [|simpl; intros [= <-]; exact Htb].
    destruct (table_get (lock_table σ) k) as [lock|]; [|discriminate].
    destruct (hold_lock lock t md); [|simpl; intros [= <-]; exact Htb].
    assert (Hop : table_inv (lock_table (snd (run_op_closure σ t op)))).
    { destruct op; simpl;
        [now apply perform_put_table_inv | now apply perform_get_table_inv]. }
    destruct (run_op_closure σ t op) as [v σ1]. simpl in Hop.
    destruct (truthy v); simpl; intros [= <-]; exact Hop.
Qed.

Lemma run_calls_table_inv (cs : list Call) (σ σ' : State) :
  table_inv (lock_table σ) -> run_calls σ cs = Ok σ' ->
  table_inv (lock_table σ').
Proof.
  revert σ. induction cs as [|c cs IH]; simpl; intros σ Htb.
  - now intros [= <-].
  - destruct (run_call σ c) as [σ1|] eqn:E; simpl; [|discriminate].
    apply IH. eapply run_call_table_inv; eauto.
Qed.

(** C1. Every lock that calls of [request_lock] and [release_lock] can
    produce from a freshly constructed lock, and every lock that the lock
    table holds after any run of handler calls started on an empty table,
    satisfies: exclusive mode means exactly one holder; no holder means no
    mode; two transactions never both hold it exclusively; and an exclusive
    holder is the only holder. *)
Theorem lock_mutual_exclusion :
  (forall (t0 : tid) (m0 : Mode) (rq : option (list RequestLock))
          (ops : list LockOp),
      exclusive_ok (run_ops (Lock_init t0 m0 rq) ops)) /\
  (forall (st : gmap key (option value)) (hs : tid -> TransactionHandler)
          (calls : list Call) (σ : State),
      run_calls (mkState [] st hs) calls = Ok σ ->
      forall (k : key) (l : Lock),
        table_get (lock_table σ) k = Some l -> exclusive_ok l).
Proof.
  split.
  - intros t0 m0 rq ops.
    apply lock_inv_exclusive_ok, run_ops_inv, Lock_init_inv.
  - intros st hs calls σ Hrun k l Hget.
    apply lock_inv_exclusive_ok.
    eapply (table_get_Forall lock_inv); [|exact Hget].
    eapply run_calls_table_inv; [|exact Hrun]. constructor.
Qed.

(** ** [request_lock] against the grant table of the specification *)

Lemma can_acquire_lock_agrees (l : Lock) (t : tid) (m : Mode) :
  lock_inv l -> can_acquire_lock l t m = canAcquire_spec l t m.
Proof.
  intros [Hx _ Ha _ _]. unfold can_acquire_lock, canAcquire_spec, sole_holder.
  destruct (transactions l) as [|u rest] eqn:Etr; [reflexivity|].
  destruct (mode l) as [[|]|] eqn:Em; simpl.
  - specialize (Hx eq_refl). destruct rest; [|discriminate]. simpl.
    destruct (Nat.eqb u t), m; reflexivity.
  - destruct m; simpl; [|reflexivity].
    destruct rest; simpl; [|reflexivity].
    destruct (Nat.eqb u t); reflexivity.
  - specialize (Ha eq_refl). discriminate.
Qed.

(** What the scan of the queue does: either it overwrites the mode of the
    first shared request of [t], or [t] has no shared request queued and
    the queue is untouched. *)
Lemma has_request_and_update_spec (q : list RequestLock) (t : tid) (m : Mode) :
  match has_request_and_update q t m with
  | (true, q') =>
      exists i, q !! i = Some (mkRequestLock t SharedLock) /\
                q' = <[i := mkRequestLock t m]> q
  | (false, q') =>
      q' = q /\
      forall r, r ∈ q -> rl_transaction r = t -> rl_mode r = ExclusiveLock
  end.
Proof.
  induction q as [|r q IH]; simpl.
  - split; [reflexivity|]. intros r Hr. inversion Hr.
  - destruct (Nat.eqb_spec (rl_transaction r) t) as [Et|Et]; simpl.
    + destruct (rl_mode r) eqn:Er; simpl.
      * destruct (has_request_and_update q t m) as [[] q'].
        -- destruct IH as (i & Hi & ->). exists (S i). split; [exact Hi | reflexivity].
        -- destruct IH as [-> IH]. split; [reflexivity|].
           intros r' Hr' Ht'. apply elem_of_cons in Hr' as [->|Hr']; auto.
      * exists 0. destruct r as [rt rm]; simpl in *. subst. split; reflexivity.
    + destruct (has_request_and_update q t m) as [[] q'].
      * destruct IH as (i & Hi & ->). exists (S i). split; [exact Hi | reflexivity].
      * destruct IH as [-> IH]. split; [reflexivity|].
        intros r' Hr' Ht'. apply elem_of_cons in Hr' as [->|Hr']; auto.
        contradiction.
Qed.

(** The queue after [_append_request]. *)
Lemma append_request_queue (l : Lock) (t : tid) (m : Mode) :
  (queue_of (_append_request l t m) = queue_of l ++ [mkRequestLock t m] /\
   forall r, r ∈ queue_of l -> rl_transaction r = t ->
             rl_mode r = ExclusiveLock) \/
  (exists i, queue_of l !! i = Some (mkRequestLock t SharedLock) /\
             queue_of (_append_request l t m)
             = <[i := mkRequestLock t m]> (queue_of l)).
Proof.
  unfold _append_request, queue_of.
  destruct (request_queue l) as [[|r q]|].
  - left. split; [reflexivity|]. intros r Hr. inversion Hr.
  - pose proof (has_request_and_update_spec (r :: q) t m) as H.
    destruct (has_request_and_update (r :: q) t m) as [[] q']; cbn [request_queue].
    + right. exact H.
    + left. destruct H as [-> H]. split; [reflexivity | exact H].
  - left. split; [reflexivity|]. intros r Hr. inversion Hr.
Qed.

Lemma append_request_queued (l : Lock) (t : tid) (m : Mode) :
  mkRequestLock t m ∈ queue_of (_append_request l t m).
Proof.
  destruct (append_request_queue l t m) as [[-> _]|(i & Hi & ->)].
  - apply elem_of_app. right. left.
  - apply list_elem_of_lookup. exists i.
    apply list_lookup_insert_eq. now apply lookup_lt_Some in Hi.
Qed.

(** The scan of the queue, exactly: the entry overwritten is the first
    shared request of [t], and nothing is overwritten only when [t] has no
    shared request queued. *)
Lemma has_request_and_update_first (q : list RequestLock) (t : tid) (m : Mode) :
  match has_request_and_update q t m with
  | (true, q') =>
      exists i, q !! i = Some (mkRequestLock t SharedLock) /\
                (forall j, j < i ->
                           q !! j <> Some (mkRequestLock t SharedLock)) /\
                q' = <[i := mkRequestLock t m]> q
  | (false, q') => q' = q /\ mkRequestLock t SharedLock ∉ q
  end.
Proof.
  induction q as [|r q IH]; simpl.
  - split; [reflexivity | apply not_elem_of_nil].
  - destruct (Nat.eqb_spec (rl_transaction r) t) as [Et|Et]; simpl.
    + destruct (rl_mode r) eqn:Er; simpl.
      * assert (Hr : r <> mkRequestLock t SharedLock)
          by (intros ->; discriminate).
        destruct (has_request_and_update q t m) as [[] q'].
        -- destruct IH as (i & Hi & Hmin & ->). exists (S i).
           split; [exact Hi|]. split; [|reflexivity].
           intros [|j] Hj; simpl; [congruence | apply Hmin; lia].
        -- destruct IH as [-> Hno]. split; [reflexivity|].
           apply not_elem_of_cons. split; [congruence | exact Hno].
      * exists 0. destruct r as [rt rm]; simpl in *. subst.
        split; [reflexivity|]. split; [intros j Hj; lia | reflexivity].
    + assert (Hr : r <> mkRequestLock t SharedLock)
        by (intros ->; now apply Et).
      destruct (has_request_and_update q t m) as [[] q'].
      * destruct IH as (i & Hi & Hmin & ->). exists (S i).
        split; [exact Hi|]. split; [|reflexivity].
        intros [|j] Hj; simpl; [congruence | apply Hmin; lia].
      * destruct IH as [-> Hno]. split; [reflexivity|].
        apply not_elem_of_cons. split; [congruence | exact Hno].
Qed.

(** The queue after [_append_request], exactly. *)
Lemma append_request_queue_exact (l : Lock) (t : tid) (m : Mode) :
  request_queue (_append_request l t m)
    = Some (queue_of (_append_request l t m)) /\
  ((exists i, queue_of l !! i = Some (mkRequestLock t SharedLock) /\
              (forall j, j < i ->
                 queue_of l !! j <> Some (mkRequestLock t SharedLock)) /\
              queue_of (_append_request l t m)
              = <[i := mkRequestLock t m]> (queue_of l)) \/
   ((mkRequestLock t SharedLock ∉ queue_of l) /\
    queue_of (_append_request l t m) = queue_of l ++ [mkRequestLock t m])).
Proof.
  unfold _append_request, queue_of.
  destruct (request_queue l) as [[|r q]|].
  - split; [reflexivity|]. right. split; [apply not_elem_of_nil | reflexivity].
  - pose proof (has_request_and_update_first (r :: q) t m) as H.
    destruct (has_request_and_update (r :: q) t m) as [[] q']; cbn [request_queue].
    + split; [reflexivity|]. left. exact H.
    + split; [reflexivity|]. right. destruct H as [-> H].
      split; [exact H | reflexivity].
  - split; [reflexivity|]. right. split; [apply not_elem_of_nil | reflexivity].
Qed.

(** C3. On every lock that calls can produce, [request_lock] answers [True]
    exactly in the cases of the grant table of the specification; a grant
    adds the requester to the holders when it is not one, sets the mode to
    the requested one and leaves the queue; a refusal takes the requester
    out of the holders, leaves the mode, and leaves the requester in the
    wait queue with the requested mode: when the requester has no shared
    request queued, by a new entry at the tail of the queue, which is
    otherwise unchanged; when it has one, by overwriting the mode of the
    first of them in place, with no other change to the queue. *)
Theorem request_lock_follows_grant_table
    (t0 : tid) (m0 : Mode) (rq : option (list RequestLock))
    (ops : list LockOp) (t : tid) (m : Mode) :
  let l := run_ops (Lock_init t0 m0 rq) ops in
  let r := request_lock l t m in
  fst r = canAcquire_spec l t m /\
  (fst r = true ->
     transactions (snd r)
       = (if inb t (transactions l) then transactions l
          else transactions l ++ [t]) /\
     t ∈ transactions (snd r) /\
     mode (snd r) = Some m /\
     request_queue (snd r) = request_queue l) /\
  (fst r = false ->
     transactions (snd r) = list_remove t (transactions l) /\
     (t ∉ transactions (snd r)) /\
     mode (snd r) = mode l /\
     request_queue (snd r) = Some (queue_of (snd r)) /\
     mkRequestLock t m ∈ queue_of (snd r) /\
     ((mkRequestLock t SharedLock ∉ queue_of l) ->
      queue_of (snd r) = queue_of l ++ [mkRequestLock t m]) /\
     (forall i,
        queue_of l !! i = Some (mkRequestLock t SharedLock) ->
        (forall j, j < i ->
           queue_of l !! j <> Some (mkRequestLock t SharedLock)) ->
        queue_of (snd r) = <[i := mkRequestLock t m]> (queue_of l))).
Proof.
  intros l r.
  assert (Hinv : lock_inv l) by apply run_ops_inv, Lock_init_inv.
  subst r. unfold request_lock.
  rewrite <- (can_acquire_lock_agrees l t m Hinv).
  destruct (can_acquire_lock l t m) eqn:Hcan; simpl.
  - split; [reflexivity|]. split; [|discriminate]. intros _.
    repeat split.
    destruct (inb t (transactions l)) eqn:Hin.
    + now apply inb_true_iff.
    + apply elem_of_app. right. left.
  - split; [reflexivity|]. split; [discriminate|]. intros _.
    rewrite remove_if_present.
    set (l1 := mkLock _ _ _).
    destruct (append_request_holders l1 t m) as [-> ->].
    assert (Hq1 : queue_of l1 = queue_of l) by reflexivity.
    destruct (append_request_queue_exact l1 t m) as [Hsome Hq].
    rewrite Hq1 in Hq.
    split; [reflexivity|].
    split; [apply list_remove_gone, Hinv|].
    split; [reflexivity|].
    split; [exact Hsome|].
    split; [apply append_request_queued|].
    destruct Hq as [(i0 & Hi0 & Hmin0 & Hq)|[Hno Hq]]; split.
    + intros Hno. exfalso. apply Hno. apply list_elem_of_lookup. eauto.
    + intros i Hi Hmin.
      assert (i = i0).
      { destruct (Nat.lt_trichotomy i i0) as [Hlt|[Heq|Hgt]]; [|exact Heq|].
        - exfalso. now apply (Hmin0 i Hlt).
        - exfalso. now apply (Hmin i0 Hgt). }
      subst i0. exact Hq.
    + intros _. exact Hq.
    + intros i Hi _. exfalso. apply Hno. apply list_elem_of_lookup. eauto.
Qed.

(** ** [release_lock] and the order of grants *)

Lemma waiting_overwrite (q : list RequestLock) (i : nat) (t : tid) (m m' : Mode) :
  q !! i = Some (mkRequestLock t m) ->
  map rl_transaction (<[i := mkRequestLock t m']> q) = map rl_transaction q.
Proof.
  revert i. induction q as [|r q IH]; intros [|i]; simpl; try discriminate.
  - now intros [= ->].
  - intros H. f_equal. now apply IH.
Qed.

(** A request never takes anything out of the queue nor reorders it. *)
Lemma request_lock_waiting (l : Lock) (t : tid) (m : Mode) :
  waiting (snd (request_lock l t m)) = waiting l \/
  waiting (snd (request_lock l t m)) = waiting l ++ [t].
Proof.
  unfold request_lock, waiting.
  destruct (can_acquire_lock l t m); simpl; [now left|].
  set (l1 := mkLock _ _ _).
  destruct (append_request_queue l1 t m) as [[-> _]|(i & Hi & ->)].
  - right. now rewrite map_app.
  - left. eapply waiting_overwrite, Hi.
Qed.

(** A release moves at most the head of the queue to the holders. *)
Lemma release_lock_moves_head (l : Lock) (t : tid) :
  transactions (release_lock l t)
    = list_remove t (transactions l) ++ granted_by l (Release t) /\
  waiting l = granted_by l (Release t) ++ waiting (release_lock l t) /\
  length (granted_by l (Release t)) <= 1.
Proof.
  unfold release_lock, granted_by, waiting, _grant_request, queue_of.
  rewrite remove_if_present.
  destruct (Nat.eqb_spec (length (list_remove t (transactions l))) 0) as [E|E];
    cbn [transactions request_queue].
  - destruct (request_queue l) as [[|r q]|]; simpl;
      rewrite ?app_nil_r; repeat split; lia.
  - rewrite app_nil_r. repeat split. simpl. lia.
Qed.

Lemma run_op_fifo (l : Lock) (o : LockOp) :
  exists later, waiting l ++ later = granted_by l o ++ waiting (run_op l o).
Proof.
  destruct o as [t m|t].
  - simpl. destruct (request_lock_waiting l t m) as [->| ->].
    + exists []. now rewrite app_nil_r.
    + now exists [t].
  - destruct (release_lock_moves_head l t) as (_ & H & _).
    exists []. now rewrite app_nil_r.
Qed.

Lemma run_ops_fifo (ops : list LockOp) (l : Lock) :
  exists later,
    waiting l ++ later = grant_log l ops ++ waiting (run_ops l ops).
Proof.
  revert l. induction ops as [|o ops IH]; intros l.
  - exists []. simpl. now rewrite app_nil_r.
  - destruct (run_op_fifo l o) as [e1 H1].
    destruct (IH (run_op l o)) as [e2 H2].
    exists (e1 ++ e2). unfold run_ops in *. simpl.
    rewrite <- app_assoc, <- H2, !app_assoc. now rewrite H1.
Qed.

(** C6. [release_lock] takes the transaction out of the holders; when
    holders remain, mode and queue are left alone; when none remains, the
    mode is cleared and the head of the wait queue alone, if there is one,
    becomes the only holder with its requested mode, whatever the entries
    behind it ask for.  What a release grants out of the queue is what it
    adds to the holders and takes from the front of the queue, one entry at
    most.  Over any run of calls the transactions granted out of the queue,
    followed by those still waiting, are the transactions that waited at
    the start followed by later arrivals: grants follow the order of
    arrival. *)
Theorem release_lock_grants_head_fifo :
  (forall (l : Lock) (t : tid),
      let trs := list_remove t (transactions l) in
      let l' := release_lock l t in
      (NoDup (transactions l) -> t ∉ trs) /\
      (trs <> [] -> l' = mkLock trs (mode l) (request_queue l)) /\
      (trs = [] ->
         match queue_of l with
         | [] => transactions l' = [] /\ mode l' = None /\ queue_of l' = []
         | r :: q =>
             transactions l' = [rl_transaction r] /\
             mode l' = Some (rl_mode r) /\ queue_of l' = q
         end)) /\
  (forall (l : Lock) (t : tid),
      transactions (release_lock l t)
        = list_remove t (transactions l) ++ granted_by l (Release t) /\
      waiting l = granted_by l (Release t) ++ waiting (release_lock l t) /\
      length (granted_by l (Release t)) <= 1) /\
  (forall (l : Lock) (ops : list LockOp),
      exists later,
        grant_log l ops ++ waiting (run_ops l ops) = waiting l ++ later).
Proof.
  split; [|split; [apply release_lock_moves_head|]].
  - intros l t trs l'. subst trs l'. split; [apply list_remove_gone|].
    unfold release_lock. rewrite remove_if_present. split.
    + intros Hne.
      destruct (Nat.eqb_spec (length (list_remove t (transactions l))) 0) as [E|E];
        [|reflexivity].
      apply nil_length_inv in E. contradiction.
    + intros ->. simpl. unfold _grant_request, queue_of. simpl.
      destruct (request_queue l) as [[|r q]|]; simpl; repeat split.
  - intros l ops. destruct (run_ops_fifo ops l) as [later H].
    exists later. now symmetry.
Qed.

(** ** One queue entry per transaction *)

Lemma waiting_queue_elem (l : Lock) (t : tid) :
  t ∈ waiting l -> exists r, r ∈ queue_of l /\ rl_transaction r = t.
Proof.
  unfold waiting. intros H. apply list_elem_of_fmap in H as (r & -> & Hr).
  now exists r.
Qed.

(** C7 as stated fails: a transaction whose queued request is exclusive and
    that is refused again gets a second queue entry, and the queued entry
    keeps its mode. *)
Lemma queue_entry_duplicated :
  let l := run_ops (Lock_init 7 ExclusiveLock None) [Request 1 ExclusiveLock] in
  queue_of l = [mkRequestLock 1 ExclusiveLock] /\
  fst (request_lock l 1 SharedLock) = false /\
  queue_of (snd (request_lock l 1 SharedLock))
    = [mkRequestLock 1 ExclusiveLock; mkRequestLock 1 SharedLock] /\
  ~ queue_unique (snd (request_lock l 1 SharedLock)).
Proof.
  repeat split. intros H. unfold queue_unique in H. vm_compute in H.
  apply NoDup_cons in H as [H _]. apply H. left.
Qed.

(** C7, amended. A refused request of a transaction that has no exclusive
    request queued keeps the queue at one entry per transaction: its queued
    shared entry has its mode overwritten in place by the requested mode
    and nothing is appended, or it has no entry and one is appended at the
    tail. *)
Theorem refused_request_keeps_queue_unique (l : Lock) (t : tid) (m : Mode) :
  queue_unique l ->
  (forall r, r ∈ queue_of l -> rl_transaction r = t ->
             rl_mode r = SharedLock) ->
  fst (request_lock l t m) = false ->
  let l' := snd (request_lock l t m) in
  queue_unique l' /\
  ((exists i, queue_of l !! i = Some (mkRequestLock t SharedLock) /\
              queue_of l' = <[i := mkRequestLock t m]> (queue_of l) /\
              length (queue_of l') = length (queue_of l)) \/
   ((t ∉ waiting l) /\ queue_of l' = queue_of l ++ [mkRequestLock t m])).
Proof.
  intros Hu Hshared Href l'. subst l'. revert Href.
  unfold request_lock, queue_unique.
  destruct (can_acquire_lock l t m); [discriminate|]. intros _. simpl.
  set (l1 := mkLock _ _ _).
  assert (Hq1 : queue_of l1 = queue_of l) by reflexivity.
  destruct (append_request_queue l1 t m) as [[Hq Hx]|(i & Hi & Hq)];
    rewrite Hq1 in *.
  - assert (Hno : t ∉ waiting l).
    { intros Hin. apply waiting_queue_elem in Hin as (r & Hr & Ht).
      specialize (Hshared r Hr Ht). specialize (Hx r Hr Ht). congruence. }
    split; [|right; split; [exact Hno | exact Hq]].
    unfold waiting. rewrite Hq, map_app. apply NoDup_app.
    split; [exact Hu|]. split; [|apply NoDup_singleton].
    intros x Hx1 Hx2. apply list_elem_of_singleton in Hx2 as ->. contradiction.
  - split.
    + unfold waiting. rewrite Hq. erewrite waiting_overwrite; eauto.
    + left. exists i. split; [exact Hi|]. split; [exact Hq|].
      rewrite Hq. apply length_insert.
Qed.

(** The amended C7 on a lock held by 7 where 1 has a shared request queued
    and asks for the exclusive mode. *)
Lemma refused_request_keeps_queue_unique_witness :
  let l := run_ops (Lock_init 7 ExclusiveLock None) [Request 1 SharedLock] in
  queue_of l = [mkRequestLock 1 SharedLock] /\
  queue_of (snd (request_lock l 1 ExclusiveLock))
    = [mkRequestLock 1 ExclusiveLock] /\
  queue_unique (snd (request_lock l 1 ExclusiveLock)).
Proof.
  split; [reflexivity|]. split; [reflexivity|].
  refine (proj1 (refused_request_keeps_queue_unique
    (run_ops (Lock_init 7 ExclusiveLock None) [Request 1 SharedLock])
    1 ExclusiveLock _ _ _)).
  - vm_compute. apply NoDup_singleton.
  - intros r Hr _. vm_compute in Hr.
    apply list_elem_of_singleton in Hr. now subst r.
  - reflexivity.
Defined.

(** ** The lock table as a dictionary *)

Lemma table_get_set_same (tb : list (key * Lock)) (k : key) (l : Lock) :
  table_get (table_set tb k l) k = Some l.
Proof.
  induction tb as [|[k' l'] tb IH]; simpl.
  - now rewrite String.eqb_refl.
  - destruct (String.eqb k' k) eqn:E; simpl; rewrite E; [reflexivity | exact IH].
Qed.

Lemma table_get_set_other (tb : list (key * Lock)) (k k' : key) (l : Lock) :
  k' <> k -> table_get (table_set tb k l) k' = table_get tb k'.
Proof.
  intros Hne. induction tb as [|[k0 l0] tb IH]; simpl.
  - destruct (String.eqb_spec k k'); [congruence | reflexivity].
  - destruct (String.eqb_spec k0 k) as [->|E]; simpl.
    + destruct (String.eqb_spec k k'); [congruence | reflexivity].
    + destruct (String.eqb k0 k'); [reflexivity | exact IH].
Qed.

Lemma table_set_keys (tb : list (key * Lock)) (k : key) (l : Lock) :
  map fst (table_set tb k l)
  = match table_get tb k with
    | Some _ => map fst tb
    | None => map fst tb ++ [k]
    end.
Proof.
  induction tb as [|[k0 l0] tb IH]; simpl; [reflexivity|].
  destruct (String.eqb k0 k); simpl; [reflexivity|].
  rewrite IH. now destruct (table_get tb k).
Qed.

Lemma set_handler_same (hs : tid -> TransactionHandler) (t : tid)
    (h : TransactionHandler) :
  set_handler hs t h t = h.
Proof. unfold set_handler. now rewrite Nat.eqb_refl. Qed.

Lemma set_handler_other (hs : tid -> TransactionHandler) (t u : tid)
    (h : TransactionHandler) :
  u <> t -> set_handler hs t h u = hs u.
Proof.
  unfold set_handler. intros H. now destruct (Nat.eqb_spec u t).
Qed.

Lemma store_get_put (s : gmap key (option value)) (k k' : key)
    (v : option value) :
  store_get (store_put s k v) k' = if String.eqb k k' then v else store_get s k'.
Proof.
  unfold store_get, store_put.
  destruct (String.eqb_spec k k') as [->|Hne].
  - now rewrite lookup_insert_eq.
  - now rewrite lookup_insert_ne.
Qed.

(** ** [perform_put] *)

(** C8. [perform_put] leaves a lock for the key in the table (a new key
    goes last, no other entry changes), requested in exclusive mode for
    the handler.  When the request is granted it answers ['Success'],
    appends the key with the value read from the store ([None] when absent)
    to the undo log, appends the key to the acquired locks and stores the
    value; when it is refused it answers [None], sets the desired lock to
    the key, exclusive mode and the retry of this very put, and leaves the
    store, the undo log and the acquired locks as they were. *)
Theorem perform_put_spec (σ : State) (self : tid) (k : key) (v : value) :
  let lock := match table_get (lock_table σ) k with
              | Some l => l
              | None => Lock_init self ExclusiveLock None
              end in
  let r := request_lock lock self ExclusiveLock in
  let out := perform_put σ self k v in
  let h := handlers σ self in
  let h' := handlers (snd out) self in
  table_get (lock_table (snd out)) k = Some (snd r) /\
  (forall k', k' <> k ->
     table_get (lock_table (snd out)) k' = table_get (lock_table σ) k') /\
  map fst (lock_table (snd out))
    = match table_get (lock_table σ) k with
      | Some _ => map fst (lock_table σ)
      | None => map fst (lock_table σ) ++ [k]
      end /\
  (table_get (lock_table σ) k = None -> fst r = true) /\
  (forall u, u <> self -> handlers (snd out) u = handlers σ u) /\
  _xid h' = _xid h /\
  (fst r = true ->
     fst out = Some "Success" /\
     _undo_log h' = _undo_log h ++ [(k, store_get (store σ) k)] /\
     _acquired_locks h' = _acquired_locks h ++ [k] /\
     store_get (store (snd out)) k = Some v /\
     (forall k', k' <> k ->
        store_get (store (snd out)) k' = store_get (store σ) k') /\
     _desired_lock h' = _desired_lock h) /\
  (fst r = false ->
     fst out = None /\
     _desired_lock h' = Some (k, ExclusiveLock, OpPut k v) /\
     (forall σ1, run_op_closure σ1 self (OpPut k v) = perform_put σ1 self k v) /\
     store (snd out) = store σ /\
     _undo_log h' = _undo_log h /\
     _acquired_locks h' = _acquired_locks h).
Proof.
  intros lock r out h h'. subst out h'. unfold perform_put.
  fold lock. fold r. fold h.
  split.
  { destruct r as [[] lock']; simpl; apply table_get_set_same. }
  split.
  { intros k' Hk. destruct r as [[] lock']; simpl;
      now apply table_get_set_other. }
  split.
  { destruct r as [[] lock']; simpl; rewrite table_set_keys;
      now destruct (table_get (lock_table σ) k). }
  split.
  { intros Hnone. subst r lock. rewrite Hnone.
    unfold request_lock, can_acquire_lock. simpl. now rewrite Nat.eqb_refl. }
  split.
  { intros u Hu. destruct r as [[] lock']; simpl;
      now apply set_handler_other. }
  split.
  { destruct r as [[] lock']; simpl; now rewrite set_handler_same. }
  destruct r as [[] lock']; simpl; (split; [|discriminate]) || (split; [discriminate|]);
    intros _; rewrite set_handler_same; simpl.
  - repeat split.
    + rewrite store_get_put. now rewrite String.eqb_refl.
    + intros k' Hk. rewrite store_get_put.
      destruct (String.eqb_spec k k'); [congruence | reflexivity].
  - repeat split.
Qed.

(** ** [abort]: the undo log *)

Lemma list_pop_snoc {A} (l : list A) (x : A) : list_pop (l ++ [x]) = Some (x, l).
Proof.
  induction l as [|y l IH]; simpl; [reflexivity|]. now rewrite IH.
Qed.

Lemma undo_all_snoc (log : list (key * option value)) (k : key)
    (v : option value) (s : gmap key (option value)) :
  undo_all (log ++ [(k, v)]) s = undo_all log (store_put s k v).
Proof. unfold undo_all. now rewrite rev_unit. Qed.

Lemma undo_all_cons (log : list (key * option value)) (k : key)
    (v : option value) (s : gmap key (option value)) :
  undo_all ((k, v) :: log) s = store_put (undo_all log s) k v.
Proof. unfold undo_all. simpl. now rewrite fold_left_app. Qed.

(** With fuel for every entry the loop empties the log, having written
    the entries back from the last to the first. *)
Lemma undo_loop_all (log : list (key * option value)) :
  forall (fuel : nat) (s : gmap key (option value)),
    length log <= fuel -> undo_loop fuel log s = ([], undo_all log s).
Proof.
  induction log as [|[k v] log IH] using rev_ind; intros fuel s Hlen.
  - destruct fuel; reflexivity.
  - rewrite length_app in Hlen. simpl in Hlen.
    destruct fuel as [|fuel]; [lia|]. simpl.
    rewrite list_pop_snoc, undo_all_snoc. apply IH. lia.
Qed.

(** What a put that answers something other than [None] has done. *)
Lemma perform_put_granted (σ σ' : State) (self : tid) (k : key) (v : value)
    (s : string) :
  perform_put σ self k v = (Some s, σ') ->
  exists lock',
    request_lock (match table_get (lock_table σ) k with
                  | Some l => l
                  | None => Lock_init self ExclusiveLock None
                  end) self ExclusiveLock = (true, lock') /\
    lock_table σ' = table_set (lock_table σ) k lock' /\
    store σ' = store_put (store σ) k (Some v) /\
    (forall u, u <> self -> handlers σ' u = handlers σ u) /\
    _undo_log (handlers σ' self)
      = _undo_log (handlers σ self) ++ [(k, store_get (store σ) k)] /\
    _acquired_locks (handlers σ' self)
      = _acquired_locks (handlers σ self) ++ [k].
Proof.
  unfold perform_put.
  destruct (request_lock _ self ExclusiveLock) as [[] lock']; [|discriminate].
  intros [= _ <-]. exists lock'. simpl. rewrite set_handler_same. simpl.
  repeat split. intros u Hu. now apply set_handler_other.
Qed.

Lemma run_puts_log (puts : list (key * value)) :
  forall (σ0 σ1 : State) (self : tid),
    run_puts σ0 self puts = Some σ1 ->
    exists es,
      _undo_log (handlers σ1 self) = _undo_log (handlers σ0 self) ++ es /\
      (forall k, store_get (undo_all es (store σ1)) k
                 = store_get (store σ0) k) /\
      _acquired_locks (handlers σ1 self)
        = _acquired_locks (handlers σ0 self) ++ map fst puts.
Proof.
  induction puts as [|[k v] puts IH]; simpl; intros σ0 σ1 self Hrun.
  - injection Hrun as <-. exists []. rewrite !app_nil_r. repeat split.
  - destruct (perform_put σ0 self k v) as [[s|] σ'] eqn:Hput; [|discriminate].
    apply perform_put_granted in Hput
      as (lock' & _ & _ & Hst & _ & Hlog & Hacq).
    destruct (IH _ _ _ Hrun) as (es & Hlog' & Hback & Hacq').
    exists ((k, store_get (store σ0) k) :: es).
    rewrite Hlog', Hlog, Hacq', Hacq, <- !app_assoc. repeat split.
    intros k0. rewrite undo_all_cons, store_get_put.
    destruct (String.eqb_spec k k0) as [->|Hne]; [reflexivity|].
    rewrite Hback, Hst, store_get_put.
    destruct (String.eqb_spec k k0); [congruence | reflexivity].
Qed.

(** ** [abort]: releasing the locks *)

Lemma release_keys_total (self : tid) (ks : list key) :
  forall tb : list (key * Lock),
    (forall k, k ∈ ks -> table_get tb k <> None) ->
    exists tb', release_keys tb self ks = Ok tb'.
Proof.
  induction ks as [|k ks IH]; simpl; intros tb Hdef; [now exists tb|].
  destruct (table_get tb k) as [lock|] eqn:E.
  - apply IH. intros k' Hk'.
    destruct (String.eqb_spec k' k) as [->|Hne].
    + now rewrite table_get_set_same.
    + rewrite table_get_set_other by exact Hne. apply Hdef. now right.
  - exfalso. apply (Hdef k); [left | exact E].
Qed.

Lemma run_puts_keys_locked (puts : list (key * value)) :
  forall (σ0 σ1 : State) (self : tid),
    run_puts σ0 self puts = Some σ1 ->
    forall k, (table_get (lock_table σ0) k <> None \/ k ∈ map fst puts) ->
              table_get (lock_table σ1) k <> None.
Proof.
  induction puts as [|[k v] puts IH]; simpl; intros σ0 σ1 self Hrun k0 Hk0.
  - injection Hrun as <-. destruct Hk0 as [H|H]; [exact H | inversion H].
  - destruct (perform_put σ0 self k v) as [[s|] σ'] eqn:Hput; [|discriminate].
    apply perform_put_granted in Hput as (lock' & _ & Htb & _).
    apply (IH _ _ _ Hrun).
    destruct (String.eqb_spec k0 k) as [->|Hne].
    + left. now rewrite Htb, table_get_set_same.
    + rewrite Htb, table_get_set_other by exact Hne.
      destruct Hk0 as [H|H]; [now left|].
      apply elem_of_cons in H as [H|H]; [contradiction | now right].
Qed.

(** A release by [self] of a lock that [self] does not wait for and holds,
    if at all, alone. *)
Lemma release_lock_clears (l : Lock) (self : tid) :
  self ∉ waiting l ->
  (self ∈ transactions l -> transactions l = [self]) ->
  (self ∉ transactions (release_lock l self)) /\
  (self ∉ waiting (release_lock l self)).
Proof.
  intros Hw Hsole.
  destruct (release_lock_moves_head l self) as (Htr & Hq & _).
  assert (Hrem : self ∉ list_remove self (transactions l)).
  { destruct (inb self (transactions l)) eqn:Hin.
    - apply inb_true_iff in Hin. rewrite (Hsole Hin). simpl.
      rewrite Nat.eqb_refl. apply not_elem_of_nil.
    - apply inb_false_iff in Hin. now rewrite list_remove_notin. }
  rewrite Hq in Hw. apply not_elem_of_app in Hw as [Hg Hw'].
  split; [|exact Hw']. rewrite Htr. apply not_elem_of_app. now split.
Qed.

Lemma release_keys_clears (self : tid) (ks : list key) :
  forall tb tb' : list (key * Lock),
    (forall k l, table_get tb k = Some l ->
                 (self ∉ waiting l) /\
                 (self ∈ transactions l -> transactions l = [self])) ->
    release_keys tb self ks = Ok tb' ->
    forall k l, table_get tb' k = Some l ->
      ((self ∉ waiting l) /\
       (self ∈ transactions l -> transactions l = [self])) /\
      (k ∈ ks -> self ∉ transactions l) /\
      (k ∉ ks -> table_get tb k = Some l).
Proof.
  induction ks as [|k ks IH]; simpl; intros tb tb' Htb Hrel k0 l0 Hget.
  - injection Hrel as <-. split; [now apply (Htb k0)|].
    split; [intros H; inversion H | auto].
  - destruct (table_get tb k) as [lock|] eqn:E; [|discriminate].
    destruct (Htb _ _ E) as [Hw Hsole].
    destruct (release_lock_clears lock self Hw Hsole) as [Hc1 Hc2].
    set (tb1 := table_set tb k (release_lock lock self)) in *.
    assert (Htb1 : forall k l, table_get tb1 k = Some l ->
                     (self ∉ waiting l) /\
                     (self ∈ transactions l -> transactions l = [self])).
    { intros k1 l1 H1. subst tb1.
      destruct (String.eqb_spec k1 k) as [->|Hne].
      - rewrite table_get_set_same in H1. injection H1 as <-.
        split; [exact Hc2 | intros; contradiction].
      - rewrite table_get_set_other in H1 by exact Hne. now apply (Htb k1). }
    destruct (IH tb1 tb' Htb1 Hrel k0 l0 Hget) as (HP & Hin & Hout).
    split; [exact HP|]. split.
    + intros Hk0. destruct (decide (k0 ∈ ks)) as [Hks|Hks]; [auto|].
      apply elem_of_cons in Hk0 as [->|Hk0]; [|contradiction].
      specialize (Hout Hks). subst tb1.
      rewrite table_get_set_same in Hout. now injection Hout as <-.
    + intros Hk0. apply not_elem_of_cons in Hk0 as [Hne Hks].
      specialize (Hout Hks). subst tb1.
      now rewrite table_get_set_other in Hout by exact Hne.
Qed.

(** After puts that were all granted, a handler unknown to the table at the
    start holds exactly the locks of its acquired keys, each alone. *)
Lemma run_puts_holds (puts : list (key * value)) :
  forall (σ0 σ1 : State) (self : tid),
    (forall k l, table_get (lock_table σ0) k = Some l ->
       (self ∉ waiting l) /\
       (self ∈ transactions l ->
          transactions l = [self] /\
          k ∈ _acquired_locks (handlers σ0 self))) ->
    run_puts σ0 self puts = Some σ1 ->
    forall k l, table_get (lock_table σ1) k = Some l ->
       (self ∉ waiting l) /\
       (self ∈ transactions l ->
          transactions l = [self] /\
          k ∈ _acquired_locks (handlers σ1 self)).
Proof.
  induction puts as [|[k v] puts IH]; simpl; intros σ0 σ1 self H0 Hrun.
  - now injection Hrun as <-.
  - destruct (perform_put σ0 self k v) as [[s|] σ'] eqn:Hput; [|discriminate].
    apply perform_put_granted in Hput
      as (lock' & Hreq & Htb & _ & _ & _ & Hacq).
    refine (IH _ _ _ _ Hrun). clear IH Hrun.
    intros k0 l0 Hget. rewrite Htb in Hget. rewrite Hacq.
    destruct (String.eqb_spec k0 k) as [->|Hne].
    + rewrite table_get_set_same in Hget. injection Hget as <-.
      revert Hreq. unfold request_lock.
      destruct (can_acquire_lock _ self ExclusiveLock) eqn:Hcan;
        [|discriminate].
      intros [= <-]. simpl.
      destruct (table_get (lock_table σ0) k) as [l|] eqn:E.
      * destruct (H0 _ _ E) as [Hw Hheld]. split; [exact Hw|]. intros _.
        split; [|apply elem_of_app; right; left].
        destruct (inb self (transactions l)) eqn:Hin.
        -- apply inb_true_iff in Hin. now destruct (Hheld Hin).
        -- unfold can_acquire_lock in Hcan. rewrite Hin in Hcan.
           rewrite andb_false_r in Hcan.
           destruct (transactions l); [reflexivity|]. simpl in Hcan.
           destruct (omode_is (mode l) ExclusiveLock); discriminate.
      * simpl. rewrite Nat.eqb_refl. split; [apply not_elem_of_nil|].
        intros _. split; [reflexivity | apply elem_of_app; right; left].
    + rewrite table_get_set_other in Hget by exact Hne.
      destruct (H0 _ _ Hget) as [Hw Hheld]. split; [exact Hw|].
      intros Hin. destruct (Hheld Hin) as [Hs Ha]. split; [exact Hs|].
      apply elem_of_app. now left.
Qed.

(** C2. A handler with an empty undo log and no acquired lock makes puts
    that are all granted, then aborts.  The abort does not raise and
    answers ['User Abort'] for [USER] and ['Deadlock Abort'] for
    [DEADLOCK]; the store it leaves is the store before the abort with the
    undo log written back from its last entry to its first, and reads at
    every key what it read before the puts ([None] where the key was
    absent); the undo log is empty; the lock of every key put has been
    released, in the order of the puts, and no acquired lock is left; and a
    handler that the lock table did not know before the puts holds no lock
    afterwards. *)
Theorem abort_restores_store (σ0 σ1 : State) (self : tid)
    (puts : list (key * value)) (md : Z) :
  _undo_log (handlers σ0 self) = [] ->
  _acquired_locks (handlers σ0 self) = [] ->
  run_puts σ0 self puts = Some σ1 ->
  exists msg σ2,
    abort σ1 self md = Ok (msg, σ2) /\
    (md = USER -> msg = "User Abort") /\
    (md = DEADLOCK -> msg = "Deadlock Abort") /\
    store σ2 = undo_all (_undo_log (handlers σ1 self)) (store σ1) /\
    (forall k, store_get (store σ2) k = store_get (store σ0) k) /\
    _undo_log (handlers σ2 self) = [] /\
    release_keys (lock_table σ1) self (map fst puts) = Ok (lock_table σ2) /\
    _acquired_locks (handlers σ2 self) = [] /\
    (self_unknown (lock_table σ0) self ->
     forall k l, table_get (lock_table σ2) k = Some l ->
                 self ∉ transactions l).
Proof.
  intros Hlog0 Hacq0 Hrun.
  destruct (run_puts_log _ _ _ _ Hrun) as (es & Hlog & Hback & Hacq).
  rewrite Hlog0 in Hlog. rewrite Hacq0 in Hacq. simpl in Hlog, Hacq.
  destruct (release_keys_total self (map fst puts) (lock_table σ1))
    as [tb Hrel].
  { intros k Hk. eapply run_puts_keys_locked; eauto. }
  unfold abort, release_and_grant_locks.
  rewrite undo_loop_all by lia. cbn [lock_table handlers store].
  rewrite set_handler_same. cbn [_acquired_locks _desired_lock _xid _undo_log].
  rewrite Hacq, Hrel. cbn [mbind res_mbind].
  match goal with |- context [Ok ("User Abort", ?S)] => set (σ2 := S) end.
  exists (if Z.eqb md USER then "User Abort" else "Deadlock Abort"), σ2.
  split. { destruct (Z.eqb md USER); reflexivity. }
  split. { intros ->. reflexivity. }
  split. { intros ->. reflexivity. }
  subst σ2. cbn [store handlers lock_table].
  rewrite !set_handler_same. cbn [_undo_log _acquired_locks].
  repeat split.
  - intros k. rewrite Hlog. apply Hback.
  - intros Hfresh k l Hget.
    assert (H1 : forall k l, table_get (lock_table σ1) k = Some l ->
              (self ∉ waiting l) /\
              (self ∈ transactions l ->
               transactions l = [self] /\
               k ∈ _acquired_locks (handlers σ1 self))).
    { eapply run_puts_holds; [|exact Hrun].
      intros k0 l0 H0. destruct (Hfresh _ _ H0) as [Hh Hw].
      split; [exact Hw | intros; contradiction]. }
    destruct (release_keys_clears self (map fst puts) (lock_table σ1) tb)
      with (k := k) (l := l) as (_ & Hin & Hout); auto.
    { intros k0 l0 H0. destruct (H1 _ _ H0) as [Hw Hh].
      split; [exact Hw|]. intros Hs. now destruct (Hh Hs). }
    destruct (decide (k ∈ map fst puts)) as [Hk|Hk]; [auto|].
    specialize (Hout Hk). destruct (H1 _ _ Hout) as [_ Hh].
    intros Hs. destruct (Hh Hs) as [_ Ha]. rewrite Hacq in Ha. contradiction.
Qed.

(** C2 on transaction 1 overwriting ["a"], creating ["b"] and aborting. *)
Lemma abort_restores_store_witness :
  run_puts committed_state 1 [("a", "1"); ("b", "2"); ("a", "3")]
    = Some written_state /\
  store_get (store written_state) "a" = Some "3" /\
  exists msg σ2,
    abort written_state 1 USER = Ok (msg, σ2) /\
    msg = "User Abort" /\
    store_get (store σ2) "a" = Some "0" /\
    store_get (store σ2) "b" = None.
Proof.
  split; [vm_compute; reflexivity|]. split; [vm_compute; reflexivity|].
  destruct (abort_restores_store committed_state written_state 1
              [("a", "1"); ("b", "2"); ("a", "3")] USER)
    as (msg & σ2 & Hab & Hu & _ & _ & Hst & _).
  - reflexivity.
  - reflexivity.
  - vm_compute; reflexivity.
  - exists msg, σ2. split; [exact Hab|]. split; [now apply Hu|].
    rewrite !Hst. split; vm_compute; reflexivity.
Defined.

(** ** [detect_deadlocks] *)

Lemma get_desired_key_tranc_alt (σ : State) (l : Lock) :
  get_desired_key_tranc σ l
  = match first_current_transaction l with
    | None => Err AttributeError
    | Some t =>
        match desired_key (handlers σ t) with
        | None => Err TypeError
        | Some k => Ok (k, t)
        end
    end.
Proof.
  unfold get_desired_key_tranc, desired_key.
  destruct (first_current_transaction l) as [t|]; [|reflexivity].
  now destruct (_desired_lock (handlers σ t)) as [[[k m] op]|].
Qed.

(** The answer of one table item depends only on the table, the desired
    keys and the transaction ids. *)
Lemma detect_step_agree (σ σ' : State) (k : key) (l : Lock) :
  lock_table σ = lock_table σ' ->
  (forall t, desired_key (handlers σ t) = desired_key (handlers σ' t)) ->
  (forall t, _xid (handlers σ t) = _xid (handlers σ' t)) ->
  detect_step σ k l = detect_step σ' k l.
Proof.
  intros Htb Hd Hx. unfold detect_step.
  rewrite !get_desired_key_tranc_alt.
  destruct (first_current_transaction l) as [t|]; [|reflexivity].
  rewrite <- Hd. destruct (desired_key (handlers σ t)) as [k2|]; [|reflexivity].
  cbn [mbind res_mbind]. rewrite <- Htb.
  destruct (table_get (lock_table σ) k2) as [l2|]; [|reflexivity].
  cbn [mbind res_mbind]. rewrite !get_desired_key_tranc_alt.
  destruct (first_current_transaction l2) as [t2|]; [|reflexivity].
  rewrite <- Hd. destruct (desired_key (handlers σ t2)) as [k3|]; [|reflexivity].
  cbn [mbind res_mbind]. now rewrite !Hx.
Qed.

(** C9. [detect_deadlocks] assigns nothing: it is a function of the state,
    so a second call on an unchanged state repeats the first answer.  The
    answer moreover depends only on the lock table (its keys in insertion
    order, holders and queues), on the key each handler desires and on the
    transaction ids: any two states that agree on these get the same
    answer, the same transaction id or [None] in both. *)
Theorem detect_deadlocks_deterministic (σ σ' : State) :
  lock_table σ = lock_table σ' ->
  (forall t, desired_key (handlers σ t) = desired_key (handlers σ' t)) ->
  (forall t, _xid (handlers σ t) = _xid (handlers σ' t)) ->
  detect_deadlocks σ = detect_deadlocks σ'.
Proof.
  intros Htb Hd Hx. unfold detect_deadlocks. rewrite <- Htb.
  generalize (lock_table σ) as items.
  induction items as [|[k l] items IH]; simpl; [reflexivity|].
  rewrite (detect_step_agree σ σ' k l Htb Hd Hx).
  destruct (detect_step σ' k l) as [[x|]|]; auto.
Qed.

(** C9 on the deadlock of scenario 4 and the same state with another
    store. *)
Lemma detect_deadlocks_deterministic_witness :
  detect_deadlocks deadlock_state = Some 1%Z /\
  detect_deadlocks
    (mkState (lock_table deadlock_state) ∅ (handlers deadlock_state))
  = Some 1%Z.
Proof.
  split; [vm_compute; reflexivity|].
  rewrite <- (detect_deadlocks_deterministic deadlock_state
                (mkState (lock_table deadlock_state) ∅
                         (handlers deadlock_state))).
  - vm_compute; reflexivity.
  - reflexivity.
  - intros t; reflexivity.
  - intros t; reflexivity.
Defined.

(** One table item makes [detect_deadlocks] return exactly when its chain
    closes, and what is returned is the smaller id of the two handlers met. *)
Lemma detect_step_closes (σ : State) (k : key) (l : Lock) (x : Z) :
  detect_step σ k l = Ok (Some x) <->
  exists t t2, chain_closes σ k l t t2 /\
               x = Z.min (_xid (handlers σ t)) (_xid (handlers σ t2)).
Proof.
  unfold detect_step, chain_closes. rewrite get_desired_key_tranc_alt.
  destruct (first_current_transaction l) as [t|];
    [|split; [discriminate | intros (t & t2 & (k2 & l2 & [=] & _) & _)]].
  destruct (desired_key (handlers σ t)) as [k2|] eqn:Ek2;
    [|split; [discriminate|];
      intros (t' & t2 & (k2 & l2 & [= <-] & H & _) & _); congruence].
  cbn [mbind res_mbind].
  destruct (table_get (lock_table σ) k2) as [l2|] eqn:El2;
    [|split; [discriminate|];
      intros (t' & t2 & (k2' & l2 & [= <-] & H1 & H2 & _) & _); congruence].
  cbn [mbind res_mbind]. rewrite get_desired_key_tranc_alt.
  destruct (first_current_transaction l2) as [t2|] eqn:Et2;
    [|split; [discriminate|];
      intros (t' & t2 & (k2' & l2' & [= <-] & H1 & H2 & H3 & _) & _);
      congruence].
  destruct (desired_key (handlers σ t2)) as [k3|] eqn:Ek3;
    [|split; [discriminate|];
      intros (t' & t2' & (k2' & l2' & [= <-] & H1 & H2 & H3 & H4) & _);
      congruence].
  cbn [mbind res_mbind].
  destruct (String.eqb_spec k3 k) as [->|Hne].
  - split.
    + intros [= <-]. exists t, t2. split; [|reflexivity].
      exists k2, l2. repeat split; assumption.
    + intros (t' & t2' & (k2' & l2' & [= <-] & H1 & H2 & H3 & H4) & ->).
      assert (k2' = k2) by congruence. subst k2'.
      assert (l2' = l2) by congruence. subst l2'.
      assert (t2' = t2) by congruence. now subst t2'.
  - split; [discriminate|].
    intros (t' & t2' & (k2' & l2' & [= <-] & H1 & H2 & H3 & H4) & _).
    assert (k2' = k2) by congruence. subst k2'.
    assert (l2' = l2) by congruence. subst l2'.
    assert (t2' = t2) by congruence. subst t2'. congruence.
Qed.

(** An id is returned only for a chain that closes on some table item, and
    it is the smaller id of the two handlers of that chain. *)
Lemma detect_deadlocks_sound (σ : State) (x : Z) :
  detect_deadlocks σ = Some x ->
  exists k l t t2,
    (k, l) ∈ lock_table σ /\ chain_closes σ k l t t2 /\
    x = Z.min (_xid (handlers σ t)) (_xid (handlers σ t2)).
Proof.
  unfold detect_deadlocks. generalize (lock_table σ) at 1 2 as items.
  induction items as [|[k l] items IH]; simpl; [discriminate|].
  destruct (detect_step σ k l) as [[y|]|] eqn:E.
  - intros [= ->]. apply detect_step_closes in E as (t & t2 & Hc & ->).
    exists k, l, t, t2. split; [left | now split].
  - intros H. destruct (IH H) as (k' & l' & t & t2 & Hin & Hc).
    exists k', l', t, t2. split; [now right | exact Hc].
  - intros H. destruct (IH H) as (k' & l' & t & t2 & Hin & Hc).
    exists k', l', t, t2. split; [now right | exact Hc].
Qed.

(** [None] is returned exactly when no chain closes on any table item. *)
Lemma detect_deadlocks_none (σ : State) :
  detect_deadlocks σ = None <->
  forall k l t t2, (k, l) ∈ lock_table σ -> ~ chain_closes σ k l t t2.
Proof.
  unfold detect_deadlocks. generalize (lock_table σ) at 1 2 as items.
  induction items as [|[k l] items IH]; simpl.
  - split; [|reflexivity]. intros _ k l t t2 H. inversion H.
  - destruct (detect_step σ k l) as [[y|]|] eqn:E.
    + split; [discriminate|]. intros H. exfalso.
      apply detect_step_closes in E as (t & t2 & Hc & _).
      apply (H k l t t2); [left | exact Hc].
    + rewrite IH. split.
      * intros H k' l' t t2 Hin Hc.
        apply elem_of_cons in Hin as [[= -> ->]|Hin]; [|now apply (H k' l' t t2)].
        assert (detect_step σ k l
                = Ok (Some (Z.min (_xid (handlers σ t)) (_xid (handlers σ t2)))))
          by (apply detect_step_closes; eauto).
        congruence.
      * intros H k' l' t t2 Hin. apply H. now right.
    + rewrite IH. split.
      * intros H k' l' t t2 Hin Hc.
        apply elem_of_cons in Hin as [[= -> ->]|Hin]; [|now apply (H k' l' t t2)].
        assert (detect_step σ k l
                = Ok (Some (Z.min (_xid (handlers σ t)) (_xid (handlers σ t2)))))
          by (apply detect_step_closes; eauto).
        congruence.
      * intros H k' l' t t2 Hin. apply H. now right.
Qed.

(** C4, where the code departs from it.  In scenario 1 of the
    specification, after the writer has committed and before the reader
    polls, the reader holds the lock that it still records as desired.  No
    handler waits for any handler, yet [detect_deadlocks] names the
    reader. *)
Theorem detect_deadlocks_names_granted_waiter :
  run_calls initial_state [CallPut 1 "a" "1"; CallGet 2 "a"; CallCommit 1]
    = Ok granted_state /\
  lock_table granted_state
    = [("a", mkLock [2] (Some SharedLock) (Some []))] /\
  _desired_lock (handlers granted_state 2)
    = Some ("a", SharedLock, OpGet "a") /\
  (forall a b, ~ waits_for granted_state a b) /\
  detect_deadlocks granted_state = Some 2%Z.
Proof.
  split; [vm_compute; reflexivity|].
  split; [vm_compute; reflexivity|].
  split; [vm_compute; reflexivity|].
  split; [|vm_compute; reflexivity].
  intros a b (k & m & op & l & Hd & Hg & Hh & _).
  destruct a as [|[|[|a]]]; vm_compute in Hd; try discriminate.
  injection Hd as <- <- <-. vm_compute in Hg. injection Hg as <-.
  vm_compute in Hh. discriminate.
Qed.

(** ** [check_lock] *)

(** The branches of [check_lock]: nothing desired, the desired lock not
    held in the desired mode, and the retry with a truthy or a falsy
    answer. *)
Lemma check_lock_cases (σ : State) (self : tid) :
  (_desired_lock (handlers σ self) = None ->
     check_lock σ self = Ok (None, σ)) /\
  (forall k m op l,
     _desired_lock (handlers σ self) = Some (k, m, op) ->
     table_get (lock_table σ) k = Some l ->
     (hold_lock l self m = false -> check_lock σ self = Ok (None, σ)) /\
     (hold_lock l self m = true ->
        forall v σ1, run_op_closure σ self op = (v, σ1) ->
          (truthy v = true ->
             exists σ2, check_lock σ self = Ok (v, σ2) /\
                        _desired_lock (handlers σ2 self) = None /\
                        lock_table σ2 = lock_table σ1 /\
                        store σ2 = store σ1) /\
          (truthy v = false -> check_lock σ self = Ok (v, σ1)))).
Proof.
  unfold check_lock. split.
  - now intros ->.
  - intros k m op l -> ->. split.
    + now intros ->.
    + intros -> v σ1 ->. split.
      * intros ->. eexists. split; [reflexivity|]. simpl.
        rewrite set_handler_same. repeat split.
      * now intros ->.
Qed.

(** C5, where the code departs from it.  The value written is the empty
    string; the reader was queued and then granted the lock by the writer's
    commit.  Its poll reruns the read, which answers the empty string, not
    [None]; [check_lock] returns that answer and leaves the desired lock
    set. *)
Theorem check_lock_keeps_desired_lock_on_empty_value :
  run_calls initial_state [CallPut 1 "a" ""; CallGet 2 "a"; CallCommit 1]
    = Ok empty_value_state /\
  _desired_lock (handlers empty_value_state 2)
    = Some ("a", SharedLock, OpGet "a") /\
  table_get (lock_table empty_value_state) "a"
    = Some (mkLock [2] (Some SharedLock) (Some [])) /\
  hold_lock (mkLock [2] (Some SharedLock) (Some [])) 2 SharedLock = true /\
  fst (run_op_closure empty_value_state 2 (OpGet "a")) = Some "" /\
  exists σ',
    check_lock empty_value_state 2 = Ok (Some "", σ') /\
    _desired_lock (handlers σ' 2) = Some ("a", SharedLock, OpGet "a").
Proof.
  repeat (split; [vm_compute; reflexivity|]).
  eexists. split; vm_compute; reflexivity.
Qed.

(** ** [release_and_grant_locks] and the wait queues *)

(** Releasing a lock that one does not hold and that others hold changes
    nothing. *)
Lemma release_lock_not_holder (l : Lock) (self : tid) :
  self ∉ transactions l -> transactions l <> [] -> release_lock l self = l.
Proof.
  intros Hin Hne. unfold release_lock. rewrite remove_if_present.
  rewrite list_remove_notin by exact Hin.
  destruct (transactions l) eqn:E; [contradiction|]. simpl.
  destruct l; simpl in *. now subst.
Qed.








(** * Further properties of the lock state machine *)

(** X1. The only holder of a lock is granted whatever it requests: the
    request answers [True], the holder stays the only holder, the mode
    becomes the requested one (an upgrade or a downgrade in place) and the
    queue is not touched. *)
Theorem sole_holder_always_granted (l : Lock) (t : tid) (m : Mode) :
  transactions l = [t] ->
  request_lock l t m = (true, mkLock [t] (Some m) (request_queue l)).
Proof.
  intros Htr. unfold request_lock, can_acquire_lock. rewrite Htr. simpl.
  rewrite Nat.eqb_refl. simpl.
  destruct (omode_is (mode l) ExclusiveLock); [reflexivity|].
  destruct m; reflexivity.
Qed.

(** X1 on a lock read by transaction 1 alone, which asks to write. *)
Lemma sole_holder_always_granted_witness :
  request_lock (Lock_init 1 SharedLock None) 1 ExclusiveLock
  = (true, mkLock [1] (Some ExclusiveLock) None).
Proof.
  exact (sole_holder_always_granted (Lock_init 1 SharedLock None) 1
           ExclusiveLock eq_refl).
Defined.

(** A request for a lock that the requester already holds in the
    requested mode is granted and changes nothing. *)
Lemma held_request_changes_nothing (l : Lock) (t : tid) (m : Mode) :
  hold_lock l t m = true -> request_lock l t m = (true, l).
Proof.
  unfold hold_lock. intros H. apply andb_true_iff in H as [Hin Hm].
  apply omode_is_eq in Hm.
  unfold request_lock, can_acquire_lock. rewrite Hin, Hm.
  assert (Hlen : Nat.eqb (length (transactions l)) 0 = false).
  { apply inb_true_iff in Hin. destruct (transactions l); [inversion Hin | reflexivity]. }
  rewrite Hlen. destruct l as [trs md rq]; simpl in *. subst md.
  destruct m; reflexivity.
Qed.

(** X3. On every lock that calls can produce, the requester holds the lock
    in the requested mode after [request_lock] exactly when the request was
    granted: [hold_lock], the test of [check_lock], tells granted from
    queued. *)
Theorem hold_lock_iff_granted
    (t0 : tid) (m0 : Mode) (rq : option (list RequestLock))
    (ops : list LockOp) (t : tid) (m : Mode) :
  let l := run_ops (Lock_init t0 m0 rq) ops in
  hold_lock (snd (request_lock l t m)) t m = fst (request_lock l t m).
Proof.
  intros l.
  assert (Hinv : lock_inv l) by apply run_ops_inv, Lock_init_inv.
  unfold request_lock, hold_lock.
  destruct (can_acquire_lock l t m) eqn:Hcan; simpl.
  - assert (Hm : mode_is m m = true) by now apply mode_is_eq.
    rewrite Hm, andb_true_r.
    destruct (inb t (transactions l)) eqn:Hin; [exact Hin|].
    apply inb_true_iff, elem_of_app. right. left.
  - rewrite remove_if_present.
    set (l1 := mkLock _ _ _).
    destruct (append_request_holders l1 t m) as [-> _]. subst l1. simpl.
    apply andb_false_iff. left. apply inb_false_iff.
    apply list_remove_gone, Hinv.
Qed.

(** X4. On every lock that calls can produce, and on every lock of the
    table after any run of handler calls started on an empty table: no
    transaction is twice among the holders; the mode is absent exactly when
    there is no holder; and a lock with a queued request has a holder, so
    no request waits behind a free lock. *)
Theorem waiters_only_behind_holders :
  (forall (t0 : tid) (m0 : Mode) (rq : option (list RequestLock))
          (ops : list LockOp),
      let l := run_ops (Lock_init t0 m0 rq) ops in
      NoDup (transactions l) /\
      (mode l = None <-> transactions l = []) /\
      (queue_of l <> [] -> transactions l <> [])) /\
  (forall (st : gmap key (option value)) (hs : tid -> TransactionHandler)
          (calls : list Call) (σ : State),
      run_calls (mkState [] st hs) calls = Ok σ ->
      forall (k : key) (l : Lock),
        table_get (lock_table σ) k = Some l ->
        NoDup (transactions l) /\
        (mode l = None <-> transactions l = []) /\
        (queue_of l <> [] -> transactions l <> [])).
Proof.
  assert (H : forall l, lock_inv l ->
            NoDup (transactions l) /\
            (mode l = None <-> transactions l = []) /\
            (queue_of l <> [] -> transactions l <> [])).
  { intros l [_ He Ha Hnd Hq]. split; [exact Hnd|]. split; [|exact Hq].
    split; [exact Ha | exact He]. }
  split.
  - intros t0 m0 rq ops l. apply H, run_ops_inv, Lock_init_inv.
  - intros st hs calls σ Hrun k l Hget. apply H.
    eapply (table_get_Forall lock_inv); [|exact Hget].
    eapply run_calls_table_inv; [|exact Hrun]. constructor.
Qed.

(** X5. Releasing a lock a second time changes nothing, provided the
    releasing transaction is not twice among the holders and has no request
    queued on the lock: a key listed twice among a handler's acquired locks
    is released as if listed once. *)
Theorem release_lock_twice (l : Lock) (t : tid) :
  NoDup (transactions l) -> t ∉ waiting l ->
  release_lock (release_lock l t) t = release_lock l t.
Proof.
  intros Hnd Hw.
  pose proof (list_remove_gone t _ Hnd) as Hgone.
  assert (Hfirst : release_lock l t
            = if Nat.eqb (length (list_remove t (transactions l))) 0
              then _grant_request (mkLock [] None (request_queue l))
              else mkLock (list_remove t (transactions l)) (mode l)
                          (request_queue l)).
  { unfold release_lock. rewrite remove_if_present.
    destruct (Nat.eqb_spec (length (list_remove t (transactions l))) 0) as [E|E];
      [|reflexivity].
    apply nil_length_inv in E. now rewrite E. }
  rewrite Hfirst.
  destruct (Nat.eqb_spec (length (list_remove t (transactions l))) 0) as [E|E].
  - unfold _grant_request. cbn [request_queue transactions].
    destruct (request_queue l) as [[|r q]|] eqn:Eq.
    + reflexivity.
    + assert (Hr : rl_transaction r <> t).
      { intros <-. apply Hw. unfold waiting, queue_of. rewrite Eq. left. }
      unfold release_lock. simpl.
      destruct (Nat.eqb_spec (rl_transaction r) t); [contradiction | reflexivity].
    + reflexivity.
  - apply release_lock_not_holder; cbn [transactions]; [exact Hgone|].
    intros E'. rewrite E' in E. now apply E.
Qed.

(** X5 on a lock written by 1 with a reader queued, released twice by 1. *)
Lemma release_lock_twice_witness :
  let l := mkLock [1] (Some ExclusiveLock)
                  (Some [mkRequestLock 2 SharedLock]) in
  release_lock l 1 = mkLock [2] (Some SharedLock) (Some []) /\
  release_lock (release_lock l 1) 1 = release_lock l 1.
Proof.
  split; [reflexivity|].
  apply (release_lock_twice
           (mkLock [1] (Some ExclusiveLock) (Some [mkRequestLock 2 SharedLock])) 1).
  - apply NoDup_singleton.
  - vm_compute. intros H. apply list_elem_of_singleton in H. discriminate.
Defined.

(** * Further properties of the handlers *)

(** [perform_get] and [perform_put] by the outcome of the lock request. *)
Lemma perform_get_refused (σ : State) (self : tid) (k : key) (l l' : Lock) :
  table_get (lock_table σ) k = Some l ->
  request_lock l self SharedLock = (false, l') ->
  perform_get σ self k
  = (None,
     mkState (table_set (lock_table σ) k l') (store σ)
       (set_handler (handlers σ) self
          (mkHandler (_acquired_locks (handlers σ self))
                     (Some (k, SharedLock, OpGet k))
                     (_xid (handlers σ self))
                     (_undo_log (handlers σ self))))).
Proof. intros Hget Hreq. unfold perform_get. now rewrite Hget, Hreq. Qed.

Lemma perform_get_granted (σ : State) (self : tid) (k : key) (l l' : Lock) :
  table_get (lock_table σ) k = Some l ->
  request_lock l self SharedLock = (true, l') ->
  perform_get σ self k
  = (read_answer (store σ) k,
     mkState (table_set (lock_table σ) k l') (store σ)
       (set_handler (handlers σ) self
          (mkHandler (_acquired_locks (handlers σ self) ++ [k])
                     (_desired_lock (handlers σ self))
                     (_xid (handlers σ self))
                     (_undo_log (handlers σ self))))).
Proof.
  intros Hget Hreq. unfold perform_get, read_answer. rewrite Hget, Hreq.
  now destruct (store_get (store σ) k).
Qed.

Lemma perform_put_refused (σ : State) (self : tid) (k : key) (v : value)
    (l l' : Lock) :
  table_get (lock_table σ) k = Some l ->
  request_lock l self ExclusiveLock = (false, l') ->
  perform_put σ self k v
  = (None,
     mkState (table_set (lock_table σ) k l') (store σ)
       (set_handler (handlers σ) self
          (mkHandler (_acquired_locks (handlers σ self))
                     (Some (k, ExclusiveLock, OpPut k v))
                     (_xid (handlers σ self))
                     (_undo_log (handlers σ self))))).
Proof. intros Hget Hreq. unfold perform_put. now rewrite Hget, Hreq. Qed.

Lemma perform_put_granted_eq (σ : State) (self : tid) (k : key) (v : value)
    (l l' : Lock) :
  table_get (lock_table σ) k = Some l ->
  request_lock l self ExclusiveLock = (true, l') ->
  perform_put σ self k v
  = (Some "Success",
     mkState (table_set (lock_table σ) k l')
       (store_put (store σ) k (Some v))
       (set_handler (handlers σ) self
          (mkHandler (_acquired_locks (handlers σ self) ++ [k])
                     (_desired_lock (handlers σ self))
                     (_xid (handlers σ self))
                     (_undo_log (handlers σ self)
                        ++ [(k, store_get (store σ) k)])))).
Proof. intros Hget Hreq. unfold perform_put. now rewrite Hget, Hreq. Qed.

(** A lock in exclusive mode refuses whoever is not among its holders, and
    queues the request. *)
Lemma exclusive_refuses (l : Lock) (u : tid) (m : Mode) :
  mode l = Some ExclusiveLock -> transactions l <> [] ->
  u ∉ transactions l ->
  exists l',
    request_lock l u m = (false, l') /\
    transactions l' = transactions l /\ mode l' = Some ExclusiveLock /\
    mkRequestLock u m ∈ queue_of l'.
Proof.
  intros Hm Hne Hu. apply inb_false_iff in Hu.
  unfold request_lock, can_acquire_lock. rewrite Hm, Hu. simpl.
  destruct (transactions l) as [|w trs] eqn:E; [contradiction|]. simpl.
  eexists. split; [reflexivity|].
  set (l1 := mkLock _ _ _).
  destruct (append_request_holders l1 u m) as [-> ->]. subst l1. simpl.
  repeat split. apply append_request_queued.
Qed.

(** X6. While a lock is in exclusive mode, a read or a write of its key by
    a handler that is not among the holders answers [None]; the store is
    left as it was, the holders and the mode of the lock too; the request
    is queued and recorded as the handler's desired lock. *)
Theorem exclusive_lock_blocks_others (σ : State) (u : tid) (k : key)
    (v : value) (l : Lock) :
  table_get (lock_table σ) k = Some l ->
  mode l = Some ExclusiveLock -> transactions l <> [] ->
  u ∉ transactions l ->
  let g := perform_get σ u k in
  let p := perform_put σ u k v in
  (fst g = None /\ store (snd g) = store σ /\
   _desired_lock (handlers (snd g) u) = Some (k, SharedLock, OpGet k) /\
   exists lg, table_get (lock_table (snd g)) k = Some lg /\
              transactions lg = transactions l /\
              mode lg = Some ExclusiveLock /\
              mkRequestLock u SharedLock ∈ queue_of lg) /\
  (fst p = None /\ store (snd p) = store σ /\
   _desired_lock (handlers (snd p) u) = Some (k, ExclusiveLock, OpPut k v) /\
   exists lp, table_get (lock_table (snd p)) k = Some lp /\
              transactions lp = transactions l /\
              mode lp = Some ExclusiveLock /\
              mkRequestLock u ExclusiveLock ∈ queue_of lp).
Proof.
  intros Hget Hm Hne Hu g p. subst g p. split.
  - destruct (exclusive_refuses l u SharedLock Hm Hne Hu)
      as (l' & Hreq & Htr & Hmode & Hq).
    rewrite (perform_get_refused σ u k l l' Hget Hreq). simpl.
    rewrite set_handler_same. simpl. repeat split.
    exists l'. rewrite table_get_set_same. repeat split; assumption.
  - destruct (exclusive_refuses l u ExclusiveLock Hm Hne Hu)
      as (l' & Hreq & Htr & Hmode & Hq).
    rewrite (perform_put_refused σ u k v l l' Hget Hreq). simpl.
    rewrite set_handler_same. simpl. repeat split.
    exists l'. rewrite table_get_set_same. repeat split; assumption.
Qed.

(** X6 on the key written by transaction 7, asked for by transaction 1. *)
Lemma exclusive_lock_blocks_others_witness :
  table_get (lock_table held_state) "a"
    = Some (mkLock [7] (Some ExclusiveLock) None) /\
  fst (perform_get held_state 1 "a") = None /\
  fst (perform_put held_state 1 "a" "1") = None.
Proof.
  split; [vm_compute; reflexivity|].
  destruct (exclusive_lock_blocks_others held_state 1 "a" "1"
              (mkLock [7] (Some ExclusiveLock) None))
    as [(Hg & _) (Hp & _)].
  - vm_compute; reflexivity.
  - reflexivity.
  - discriminate.
  - simpl. intros H. apply list_elem_of_singleton in H. discriminate.
  - split; assumption.
Defined.

(** X7. A handler blocked on a write polls once it holds the lock in
    exclusive mode: [check_lock] performs the write and answers
    ['Success']; the desired lock is cleared, the value is stored, the
    prior value goes to the undo log, the key joins the acquired locks and
    the lock is left as it was. *)
Theorem poll_after_grant_writes (σ : State) (self : tid) (k : key)
    (v : value) (l : Lock) :
  _desired_lock (handlers σ self) = Some (k, ExclusiveLock, OpPut k v) ->
  table_get (lock_table σ) k = Some l ->
  hold_lock l self ExclusiveLock = true ->
  exists σ',
    check_lock σ self = Ok (Some "Success", σ') /\
    _desired_lock (handlers σ' self) = None /\
    store_get (store σ') k = Some v /\
    table_get (lock_table σ') k = Some l /\
    _undo_log (handlers σ' self)
      = _undo_log (handlers σ self) ++ [(k, store_get (store σ) k)] /\
    _acquired_locks (handlers σ' self)
      = _acquired_locks (handlers σ self) ++ [k].
Proof.
  intros Hd Hget Hhold. unfold check_lock. rewrite Hd, Hget, Hhold.
  cbn [run_op_closure].
  rewrite (perform_put_granted_eq σ self k v l l Hget
             (held_request_changes_nothing l self ExclusiveLock Hhold)).
  cbn [truthy String.eqb negb]. eexists. split; [reflexivity|].
  cbn [handlers store lock_table]. rewrite !set_handler_same.
  cbn [_desired_lock _undo_log _acquired_locks].
  rewrite table_get_set_same, store_get_put, String.eqb_refl. repeat split.
Qed.

(** X7 on transaction 2, granted the lock of ["a"] by the commit of 1. *)
Lemma poll_after_grant_writes_witness :
  exists σ',
    check_lock granted_writer_state 2 = Ok (Some "Success", σ') /\
    _desired_lock (handlers σ' 2) = None /\
    store_get (store σ') "a" = Some "2".
Proof.
  destruct (poll_after_grant_writes granted_writer_state 2 "a" "2"
              (mkLock [2] (Some ExclusiveLock) (Some [])))
    as (σ' & H1 & H2 & H3 & _).
  - vm_compute; reflexivity.
  - vm_compute; reflexivity.
  - reflexivity.
  - exists σ'. repeat split; assumption.
Defined.

(** X8. A handler blocked on a read polls once it holds the lock in shared
    mode: [check_lock] answers the stored value, or ['No such key'] when
    there is none, never [None]; the store and the lock are left as they
    were, the key joins the acquired locks, and the desired lock is cleared
    unless the stored value is the empty string. *)
Theorem poll_after_grant_reads (σ : State) (self : tid) (k : key) (l : Lock) :
  _desired_lock (handlers σ self) = Some (k, SharedLock, OpGet k) ->
  table_get (lock_table σ) k = Some l ->
  hold_lock l self SharedLock = true ->
  exists σ',
    check_lock σ self = Ok (read_answer (store σ) k, σ') /\
    read_answer (store σ) k <> None /\
    store σ' = store σ /\
    table_get (lock_table σ') k = Some l /\
    _acquired_locks (handlers σ' self)
      = _acquired_locks (handlers σ self) ++ [k] /\
    (store_get (store σ) k <> Some "" ->
     _desired_lock (handlers σ' self) = None).
Proof.
  intros Hd Hget Hhold. unfold check_lock. rewrite Hd, Hget, Hhold.
  cbn [run_op_closure].
  rewrite (perform_get_granted σ self k l l Hget
             (held_request_changes_nothing l self SharedLock Hhold)).
  assert (Hans : read_answer (store σ) k <> None)
    by (unfold read_answer; destruct (store_get (store σ) k); discriminate).
  destruct (truthy (read_answer (store σ) k)) eqn:Etr.
  - eexists. split; [reflexivity|]. split; [exact Hans|].
    cbn [handlers store lock_table]. rewrite !set_handler_same.
    cbn [_desired_lock _acquired_locks].
    rewrite table_get_set_same. repeat split.
  - eexists. split; [reflexivity|]. split; [exact Hans|].
    cbn [handlers store lock_table]. rewrite !set_handler_same.
    cbn [_desired_lock _acquired_locks].
    rewrite table_get_set_same. repeat split.
    intros Hne. revert Etr. unfold truthy, read_answer.
    destruct (store_get (store σ) k) as [x|] eqn:Ex; [|discriminate].
    destruct (String.eqb_spec x "") as [->|_]; [|discriminate].
    intros _. exfalso. now apply Hne.
Qed.

(** X8 on transaction 2, granted the lock of ["a"] by the commit of 1. *)
Lemma poll_after_grant_reads_witness :
  exists σ',
    check_lock granted_state 2 = Ok (Some "1", σ') /\
    _desired_lock (handlers σ' 2) = None.
Proof.
  destruct (poll_after_grant_reads granted_state 2 "a"
              (mkLock [2] (Some SharedLock) (Some [])))
    as (σ' & H1 & _ & _ & _ & _ & H2).
  - vm_compute; reflexivity.
  - vm_compute; reflexivity.
  - reflexivity.
  - exists σ'. split; [exact H1|]. apply H2. vm_compute. discriminate.
Defined.

(** A granted request leaves the requester among the holders, in the
    requested mode. *)
Lemma granted_request_holds (l l' : Lock) (t : tid) (m : Mode) :
  request_lock l t m = (true, l') ->
  t ∈ transactions l' /\ mode l' = Some m /\
  request_queue l' = request_queue l.
Proof.
  unfold request_lock. destruct (can_acquire_lock l t m); [|discriminate].
  intros [= <-]. simpl. repeat split.
  destruct (inb t (transactions l)) eqn:Hin.
  - now apply inb_true_iff.
  - apply elem_of_app. right. left.
Qed.


(** X9. A handler reads its own write: after a put that was granted, a get
    of the same key by the same handler is granted and answers the value
    just written. *)
Theorem read_your_writes (σ σ1 : State) (t : tid) (k : key) (v : value)
    (s : string) :
  perform_put σ t k v = (Some s, σ1) ->
  fst (perform_get σ1 t k) = Some v.
Proof.
  intros Hput.
  apply perform_put_granted in Hput as (l1 & Hreq & Htb & Hst & _).
  apply granted_request_holds in Hreq as (Hin & Hm & _).
  assert (Hget : table_get (lock_table σ1) k = Some l1)
    by (rewrite Htb; apply table_get_set_same).
  assert (Hhold : request_lock l1 t SharedLock
                  = (true, mkLock (transactions l1) (Some SharedLock)
                                  (request_queue l1))).
  { unfold request_lock, can_acquire_lock. rewrite Hm. simpl.
    apply inb_true_iff in Hin. rewrite Hin.
    destruct (transactions l1); [discriminate | reflexivity]. }
  rewrite (perform_get_granted σ1 t k l1 _ Hget Hhold). simpl.
  unfold read_answer. rewrite Hst, store_get_put, String.eqb_refl. reflexivity.
Qed.

(** X9 on the first write of transaction 1. *)
Lemma read_your_writes_witness :
  perform_put initial_state 1 "a" "5"
    = (Some "Success", snd (perform_put initial_state 1 "a" "5")) /\
  fst (perform_get (snd (perform_put initial_state 1 "a" "5")) 1 "a")
    = Some "5".
Proof.
  split; [reflexivity|].
  apply (read_your_writes initial_state _ 1 "a" "5" "Success"). reflexivity.
Defined.



(** The first request on a lock just constructed for the requester. *)
Lemma fresh_lock_granted (t : tid) (m : Mode) :
  request_lock (Lock_init t m None) t m = (true, Lock_init t m None).
Proof.
  unfold request_lock, can_acquire_lock, Lock_init. simpl.
  rewrite Nat.eqb_refl. destruct m; reflexivity.
Qed.

(** X11. A write of a key that has no lock yet is granted; if the writer,
    whose undo log and acquired locks were empty, then aborts, the abort
    does not raise, the lock of the key is left free, and a get of the key
    by any handler is granted and answers what the store held before the
    write, ['No such key'] if it held nothing. *)
Theorem aborted_write_leaves_no_trace (σ : State) (t u : tid) (k : key)
    (v : value) (md : Z) :
  table_get (lock_table σ) k = None ->
  _undo_log (handlers σ t) = [] ->
  _acquired_locks (handlers σ t) = [] ->
  fst (perform_put σ t k v) = Some "Success" /\
  exists msg σ2,
    abort (snd (perform_put σ t k v)) t md = Ok (msg, σ2) /\
    table_get (lock_table σ2) k = Some (mkLock [] None None) /\
    fst (perform_get σ2 u k) = read_answer (store σ) k.
Proof.
  intros Hnone Hlog Hacq.
  unfold perform_put. rewrite Hnone, fresh_lock_granted, Hlog, Hacq.
  cbn [fst snd app]. split; [reflexivity|].
  unfold abort, release_and_grant_locks.
  cbn [handlers lock_table store]. rewrite set_handler_same.
  cbn [_undo_log _acquired_locks _desired_lock _xid length].
  rewrite undo_loop_all by (simpl; lia).
  cbn [handlers lock_table store]. rewrite set_handler_same.
  cbn [_undo_log _acquired_locks _desired_lock _xid release_keys].
  rewrite table_get_set_same.
  assert (Hrel : release_lock (Lock_init t ExclusiveLock None) t
                 = mkLock [] None None).
  { unfold release_lock, Lock_init. simpl. now rewrite Nat.eqb_refl. }
  rewrite Hrel. cbn [mbind res_mbind].
  match goal with |- context [Ok ("User Abort", ?S)] => set (σ2 := S) end.
  exists (if Z.eqb md USER then "User Abort" else "Deadlock Abort"), σ2.
  split; [destruct (Z.eqb md USER); reflexivity|].
  assert (Hget : table_get (lock_table σ2) k = Some (mkLock [] None None))
    by (subst σ2; cbn [lock_table]; apply table_get_set_same).
  split; [exact Hget|].
  rewrite (perform_get_granted σ2 u k _ (mkLock [u] (Some SharedLock) None) Hget)
    by reflexivity.
  cbn [fst]. subst σ2. cbn [store]. unfold read_answer.
  unfold undo_all. simpl. rewrite !store_get_put, String.eqb_refl. reflexivity.
Qed.

(** X11 on transaction 1 writing the new key ["b"] and aborting. *)
Lemma aborted_write_leaves_no_trace_witness :
  exists msg σ2,
    abort (snd (perform_put committed_state 1 "b" "9")) 1 USER = Ok (msg, σ2) /\
    fst (perform_get σ2 2 "b") = Some "No such key".
Proof.
  destruct (aborted_write_leaves_no_trace committed_state 1 2 "b" "9" USER)
    as (_ & msg & σ2 & Hab & _ & Hread).
  - vm_compute; reflexivity.
  - reflexivity.
  - vm_compute; reflexivity.
  - exists msg, σ2. split; [exact Hab|]. rewrite Hread. vm_compute. reflexivity.
Defined.

(** ** Handing a lock over at commit *)

Lemma table_set_defined (tb : list (key * Lock)) (k k' : key) (l : Lock) :
  table_get tb k' <> None -> table_get (table_set tb k l) k' <> None.
Proof.
  intros H. destruct (String.eqb_spec k' k) as [->|Hne].
  - now rewrite table_get_set_same.
  - now rewrite table_get_set_other.
Qed.

(** A lock that a release by [self] does not change is left alone by the
    release of all the keys. *)
Lemma release_keys_stable (self : tid) (k : key) (l : Lock) (ks : list key) :
  release_lock l self = l ->
  forall tb tb' : list (key * Lock),
    table_get tb k = Some l -> release_keys tb self ks = Ok tb' ->
    table_get tb' k = Some l.
Proof.
  intros Hfix. induction ks as [|k0 ks IH]; simpl; intros tb tb' Hget Hrel.
  - now injection Hrel as <-.
  - destruct (table_get tb k0) as [l0|] eqn:E; [|discriminate].
    refine (IH _ _ _ Hrel).
    destruct (String.eqb_spec k k0) as [->|Hne].
    + assert (l0 = l) by congruence. subst l0.
      now rewrite table_get_set_same, Hfix.
    + now rewrite table_get_set_other.
Qed.

(** A key among those released ends with its lock released once, when a
    second release would change nothing. *)
Lemma release_keys_released (self : tid) (k : key) (l : Lock) (ks : list key) :
  release_lock (release_lock l self) self = release_lock l self ->
  k ∈ ks ->
  forall tb tb' : list (key * Lock),
    table_get tb k = Some l -> release_keys tb self ks = Ok tb' ->
    table_get tb' k = Some (release_lock l self).
Proof.
  intros Hfix. induction ks as [|k0 ks IH]; simpl; intros Hin tb tb' Hget Hrel.
  - inversion Hin.
  - destruct (table_get tb k0) as [l0|] eqn:E; [|discriminate].
    destruct (String.eqb_spec k k0) as [->|Hne].
    + assert (l0 = l) by congruence. subst l0.
      eapply release_keys_stable; [exact Hfix | | exact Hrel].
      apply table_get_set_same.
    + apply elem_of_cons in Hin as [->|Hin]; [contradiction|].
      refine (IH Hin _ _ _ Hrel). now rewrite table_get_set_other.
Qed.

(** X12. A reader blocked by a writer gets the committed value at its
    first poll after the commit.  The writer [t] holds the lock of [k]
    alone in exclusive mode with nobody queued, [k] is among its acquired
    keys, which all have locks, and the store holds a non-empty value for
    [k].  Then the get of another handler [u] answers [None]; a poll by [u]
    before the commit answers [None] and changes nothing; the commit of [t]
    does not raise; and the poll by [u] after it answers the stored value,
    clears the desired lock and leaves [u] the only holder of the lock, in
    shared mode. *)
Theorem blocked_reader_reads_after_commit (σ : State) (t u : tid) (k : key)
    (v : value) (l : Lock) :
  u <> t ->
  table_get (lock_table σ) k = Some l ->
  transactions l = [t] -> mode l = Some ExclusiveLock -> queue_of l = [] ->
  k ∈ _acquired_locks (handlers σ t) ->
  (forall k', k' ∈ _acquired_locks (handlers σ t) ->
              table_get (lock_table σ) k' <> None) ->
  store_get (store σ) k = Some v -> v <> "" ->
  let σ1 := snd (perform_get σ u k) in
  fst (perform_get σ u k) = None /\
  check_lock σ1 u = Ok (None, σ1) /\
  exists σ2,
    commit σ1 t = Ok ("Transaction Completed", σ2) /\
    exists σ3,
      check_lock σ2 u = Ok (Some v, σ3) /\
      _desired_lock (handlers σ3 u) = None /\
      table_get (lock_table σ3) k
        = Some (mkLock [u] (Some SharedLock) (Some [])).
Proof.
  intros Hut Hget Htr Hm Hq Hk Hdef Hst Hv σ1. subst σ1.
  set (l1 := mkLock [t] (Some ExclusiveLock)
                    (Some [mkRequestLock u SharedLock])).
  set (l2 := mkLock [u] (Some SharedLock) (Some [])).
  assert (Hreq : request_lock l u SharedLock = (false, l1)).
  { unfold request_lock, can_acquire_lock. rewrite Htr, Hm. simpl.
    destruct (Nat.eqb_spec t u) as [E|_]; [congruence|].
    unfold _append_request. simpl. unfold queue_of in Hq.
    destruct (request_queue l) as [[|r q]|]; try discriminate; reflexivity. }
  rewrite (perform_get_refused σ u k l l1 Hget Hreq). cbn [fst snd].
  set (σ1 := mkState _ _ _).
  assert (Hget1 : table_get (lock_table σ1) k = Some l1)
    by (subst σ1; cbn [lock_table]; apply table_get_set_same).
  assert (Hd1 : _desired_lock (handlers σ1 u) = Some (k, SharedLock, OpGet k))
    by (subst σ1; cbn [handlers]; now rewrite set_handler_same).
  split; [reflexivity|]. split.
  { unfold check_lock. rewrite Hd1, Hget1. subst l1. unfold hold_lock. simpl.
    destruct (Nat.eqb_spec t u) as [E|_]; [congruence | reflexivity]. }
  assert (Hacq1 : _acquired_locks (handlers σ1 t) = _acquired_locks (handlers σ t)).
  { subst σ1. cbn [handlers]. rewrite set_handler_other by congruence. reflexivity. }
  destruct (release_keys_total t (_acquired_locks (handlers σ t)) (lock_table σ1))
    as [tb2 Hrel].
  { intros k' Hk'. subst σ1. cbn [lock_table]. apply table_set_defined. auto. }
  assert (Hrel1 : release_lock l1 t = l2).
  { subst l1 l2. unfold release_lock. simpl. now rewrite Nat.eqb_refl. }
  assert (Hget2 : table_get tb2 k = Some l2).
  { rewrite <- Hrel1.
    eapply (release_keys_released t k l1); [| exact Hk | exact Hget1 | exact Hrel].
    rewrite Hrel1. subst l2. unfold release_lock. simpl.
    destruct (Nat.eqb_spec u t) as [E|_]; [congruence | reflexivity]. }
  unfold commit, release_and_grant_locks. rewrite Hacq1, Hrel.
  cbn [mbind res_mbind]. eexists. split; [reflexivity|].
  set (σ2 := mkState tb2 _ _).
  assert (Hd2 : _desired_lock (handlers σ2 u) = Some (k, SharedLock, OpGet k)).
  { subst σ2. cbn [handlers]. rewrite set_handler_other by exact Hut. exact Hd1. }
  assert (Hhold : hold_lock l2 u SharedLock = true)
    by (subst l2; unfold hold_lock; simpl; now rewrite Nat.eqb_refl).
  unfold check_lock. rewrite Hd2.
  change (lock_table σ2) with tb2. rewrite Hget2, Hhold.
  cbn [run_op_closure].
  rewrite (perform_get_granted σ2 u k l2 l2 Hget2
             (held_request_changes_nothing l2 u SharedLock Hhold)).
  assert (Hans : read_answer (store σ2) k = Some v).
  { subst σ2 σ1. cbn [store]. unfold read_answer. now rewrite Hst. }
  rewrite Hans.
  assert (Htruthy : truthy (Some v) = true).
  { simpl. destruct (String.eqb_spec v ""); [contradiction | reflexivity]. }
  rewrite Htruthy. eexists. split; [reflexivity|].
  cbn [handlers lock_table]. rewrite set_handler_same. cbn [_desired_lock].
  split; [reflexivity|]. apply table_get_set_same.
Qed.

(** X12 on the key written by 7 and asked for by 1 before 7 commits. *)
Lemma blocked_reader_reads_after_commit_witness :
  fst (perform_get held_state 1 "a") = None /\
  exists σ2 σ3,
    commit (snd (perform_get held_state 1 "a")) 7
      = Ok ("Transaction Completed", σ2) /\
    check_lock σ2 1 = Ok (Some "0", σ3).
Proof.
  destruct (blocked_reader_reads_after_commit held_state 7 1 "a" "0"
              (mkLock [7] (Some ExclusiveLock) None))
    as (Hnone & _ & σ2 & Hc & σ3 & Hp & _).
  - discriminate.
  - vm_compute; reflexivity.
  - reflexivity.
  - reflexivity.
  - reflexivity.
  - vm_compute. left.
  - intros k' Hk'. vm_compute in Hk'.
    apply list_elem_of_singleton in Hk' as ->. vm_compute. discriminate.
  - vm_compute; reflexivity.
  - discriminate.
  - split; [exact Hnone|]. exists σ2, σ3. split; assumption.
Defined.

(** ** No call raises *)

Lemma release_keys_defined (self : tid) (ks : list key) :
  forall tb tb' : list (key * Lock),
    release_keys tb self ks = Ok tb' ->
    forall k, table_get tb k <> None -> table_get tb' k <> None.
Proof.
  induction ks as [|k0 ks IH]; simpl; intros tb tb' Hrel k Hk.
  - now injection Hrel as <-.
  - destruct (table_get tb k0) as [l0|]; [|discriminate].
    apply (IH _ _ Hrel). now apply table_set_defined.
Qed.

Lemma desired_key_some (h : TransactionHandler) (k : key) (m : Mode) (op : Op) :
  _desired_lock h = Some (k, m, op) -> desired_key h = Some k.
Proof. unfold desired_key. now intros ->. Qed.

Lemma perform_put_keys_locked (σ : State) (self : tid) (k : key) (v : value) :
  keys_locked σ -> keys_locked (snd (perform_put σ self k v)).
Proof.
  intros H t k0. unfold perform_put.
  destruct (request_lock _ self ExclusiveLock) as [[] lock'];
    cbn [snd handlers lock_table]; unfold set_handler;
    (destruct (Nat.eqb_spec t self) as [->|Hne];
     [|intros Hk; apply table_set_defined, (H t k0), Hk]);
    unfold desired_key; cbn [_acquired_locks _desired_lock].
  - intros [Hk|Hk].
    + apply elem_of_app in Hk as [Hk|Hk].
      * apply table_set_defined, (H self k0). now left.
      * apply list_elem_of_singleton in Hk as ->. now rewrite table_get_set_same.
    + apply table_set_defined, (H self k0). now right.
  - intros [Hk|Hk].
    + apply table_set_defined, (H self k0). now left.
    + injection Hk as <-. now rewrite table_get_set_same.
Qed.

Lemma perform_get_keys_locked (σ : State) (self : tid) (k : key) :
  keys_locked σ -> keys_locked (snd (perform_get σ self k)).
Proof.
  intros H t k0. unfold perform_get.
  destruct (request_lock _ self SharedLock) as [[] lock'].
  - match goal with |- context [match store_get ?s ?k with _ => _ end] =>
      destruct (store_get s k) end;
      cbn [snd handlers lock_table]; unfold set_handler;
      (destruct (Nat.eqb_spec t self) as [->|Hne];
       [|intros Hk; apply table_set_defined, (H t k0), Hk]);
      unfold desired_key; cbn [_acquired_locks _desired_lock];
      (intros [Hk|Hk];
       [apply elem_of_app in Hk as [Hk|Hk];
        [apply table_set_defined, (H self k0); now left
        |apply list_elem_of_singleton in Hk as ->;
         now rewrite table_get_set_same]
       |apply table_set_defined, (H self k0); now right]).
  - cbn [snd handlers lock_table]. unfold set_handler.
    destruct (Nat.eqb_spec t self) as [->|Hne];
      [|intros Hk; apply table_set_defined, (H t k0), Hk].
    unfold desired_key; cbn [_acquired_locks _desired_lock].
    intros [Hk|Hk].
    + apply table_set_defined, (H self k0). now left.
    + injection Hk as <-. now rewrite table_get_set_same.
Qed.

(** With every acquired key locked, the release of a handler's locks does
    not raise, and keeps every acquired and desired key locked. *)
Lemma release_and_grant_locks_keys_locked (σ : State) (self : tid) :
  keys_locked σ ->
  exists σ', release_and_grant_locks σ self = Ok σ' /\ keys_locked σ' /\
             store σ' = store σ.
Proof.
  intros H. unfold release_and_grant_locks.
  destruct (release_keys_total self (_acquired_locks (handlers σ self))
              (lock_table σ)) as [tb Hrel].
  { intros k Hk. apply (H self k). now left. }
  rewrite Hrel. cbn [mbind res_mbind]. eexists. split; [reflexivity|].
  split; [|reflexivity].
  intros t k0. cbn [handlers lock_table]. unfold set_handler.
  destruct (Nat.eqb_spec t self) as [->|Hne];
    cbn [_acquired_locks]; unfold desired_key; cbn [_desired_lock];
    intros [Hk|Hk].
  - inversion Hk.
  - eapply release_keys_defined; [exact Hrel|]. apply (H self k0). now right.
  - eapply release_keys_defined; [exact Hrel|]. apply (H t k0). now left.
  - eapply release_keys_defined; [exact Hrel|]. apply (H t k0). now right.
Qed.

Lemma run_call_keys_locked (σ : State) (c : Call) :
  keys_locked σ -> exists σ', run_call σ c = Ok σ' /\ keys_locked σ'.
Proof.
  intros H. destruct c as [t k v|t k|t|t md|t]; simpl.
  - eexists. split; [reflexivity|]. now apply perform_put_keys_locked.
  - eexists. split; [reflexivity|]. now apply perform_get_keys_locked.
  - unfold commit.
    destruct (release_and_grant_locks_keys_locked σ t H) as (σ' & -> & H' & _).
    cbn [mbind res_mbind snd]. eauto.
  - unfold abort. destruct (undo_loop _ _ _) as [log s].
    match goal with |- context [release_and_grant_locks ?x t] =>
      set (σ1 := x) end.
    assert (H1 : keys_locked σ1).
    { intros u k0. subst σ1. cbn [handlers lock_table]. unfold set_handler.
      destruct (Nat.eqb_spec u t) as [->|Hne]; [|apply H].
      cbn [_acquired_locks]. unfold desired_key. cbn [_desired_lock].
      apply (H t k0). }
    destruct (release_and_grant_locks_keys_locked σ1 t H1) as (σ' & -> & H' & _).
    cbn [mbind res_mbind]. destruct (Z.eqb md USER); cbn [mbind res_mbind snd]; eauto.
  - unfold check_lock.
    destruct (_desired_lock (handlers σ t)) as [[[k md] op]|] eqn:Ed;
      [|cbn [mbind res_mbind snd]; eauto].
    destruct (table_get (lock_table σ) k) as [lock|] eqn:El.
    + destruct (hold_lock lock t md); [|cbn [mbind res_mbind snd]; eauto].
      assert (Hop : keys_locked (snd (run_op_closure σ t op))).
      { destruct op; simpl;
          [now apply perform_put_keys_locked | now apply perform_get_keys_locked]. }
      destruct (run_op_closure σ t op) as [v σ1]. cbn [snd] in Hop.
      destruct (truthy v); cbn [mbind res_mbind snd]; [|eauto].
      eexists. split; [reflexivity|].
      intros u k0. cbn [handlers lock_table]. unfold set_handler.
      destruct (Nat.eqb_spec u t) as [->|Hne]; [|apply Hop].
      cbn [_acquired_locks]. unfold desired_key. cbn [_desired_lock].
      intros [Hk|Hk]; [|discriminate]. apply (Hop t k0). now left.
    + exfalso. apply (H t k); [|exact El]. right.
      eapply desired_key_some, Ed.
Qed.

(** X13. No handler call ever raises.  Started on an empty lock table with
    handlers that have acquired and desire nothing, every run of calls of
    [perform_put], [perform_get], [commit], [abort] and [check_lock], on
    any handlers in any order, runs to its end: the lock looked up by
    [release_and_grant_locks] and by [check_lock] is always there. *)
Theorem handler_calls_never_raise (st : gmap key (option value))
    (hs : tid -> TransactionHandler) (calls : list Call) :
  (forall t, _acquired_locks (hs t) = [] /\ _desired_lock (hs t) = None) ->
  exists σ, run_calls (mkState [] st hs) calls = Ok σ /\ keys_locked σ.
Proof.
  intros Hfresh.
  assert (H0 : keys_locked (mkState [] st hs)).
  { intros t k. cbn [handlers]. destruct (Hfresh t) as [Ha Hd].
    unfold desired_key. rewrite Ha, Hd. intros [H|H]; [inversion H | discriminate]. }
  revert H0. generalize (mkState [] st hs) as σ.
  induction calls as [|c calls IH]; intros σ H; simpl.
  - eauto.
  - destruct (run_call_keys_locked σ c H) as (σ' & -> & H').
    cbn [mbind res_mbind]. now apply IH.
Qed.

(** X13 on the calls of scenario 4 followed by the abort of the victim and
    the poll of the survivor. *)
Lemma handler_calls_never_raise_witness :
  exists σ,
    run_calls initial_state
      [CallPut 1 "a" "1"; CallPut 2 "b" "2"; CallGet 1 "b"; CallGet 2 "a";
       CallAbort 1 DEADLOCK; CallCheck 2; CallCommit 2] = Ok σ.
Proof.
  destruct (handler_calls_never_raise ∅
              (fun t => TransactionHandler_init (Z.of_nat t))
              [CallPut 1 "a" "1"; CallPut 2 "b" "2"; CallGet 1 "b";
               CallGet 2 "a"; CallAbort 1 DEADLOCK; CallCheck 2; CallCommit 2])
    as (σ & Hrun & _).
  - intros t. split; reflexivity.
  - exists σ. exact Hrun.
Defined.

(** ** The lock table never loses a key *)

Lemma table_set_defined_inv (tb : list (key * Lock)) (k k' : key) (l : Lock) :
  table_get (table_set tb k l) k' <> None -> k' = k \/ table_get tb k' <> None.
Proof.
  destruct (String.eqb_spec k' k) as [->|Hne]; [now left|].
  rewrite table_get_set_other by exact Hne. now right.
Qed.

(** The release of keys creates no lock. *)
Lemma release_keys_defined_inv (self : tid) (ks : list key) :
  forall tb tb' : list (key * Lock),
    release_keys tb self ks = Ok tb' ->
    forall k, table_get tb' k <> None -> table_get tb k <> None.
Proof.
  induction ks as [|k0 ks IH]; simpl; intros tb tb' Hrel k Hk.
  - now injection Hrel as <-.
  - destruct (table_get tb k0) as [l0|] eqn:E; [|discriminate].
    apply (IH _ _ Hrel) in Hk.
    apply table_set_defined_inv in Hk as [->|Hk]; [congruence | exact Hk].
Qed.

Lemma run_call_keeps_keys (σ σ' : State) (c : Call) :
  run_call σ c = Ok σ' ->
  forall k, table_get (lock_table σ) k <> None ->
            table_get (lock_table σ') k <> None.
Proof.
  destruct c as [t k v|t k|t|t md|t]; simpl.
  - intros [= <-] k0 Hk. unfold perform_put.
    destruct (request_lock _ t ExclusiveLock) as [[] lock'];
      cbn [snd lock_table]; now apply table_set_defined.
  - intros [= <-] k0 Hk. unfold perform_get.
    destruct (request_lock _ t SharedLock) as [[] lock'];
      [destruct (store_get (store σ) k)|];
      cbn [snd lock_table]; now apply table_set_defined.
  - unfold commit, release_and_grant_locks.
    destruct (release_keys _ _ _) as [tb|] eqn:E; [|discriminate].
    cbn [mbind res_mbind snd]. intros [= <-] k0 Hk. cbn [lock_table].
    eapply release_keys_defined; eauto.
  - unfold abort, release_and_grant_locks.
    destruct (undo_loop _ _ _) as [log s]. cbn [handlers lock_table].
    rewrite set_handler_same. cbn [_acquired_locks].
    destruct (release_keys _ _ _) as [tb|] eqn:E; [|discriminate].
    cbn [mbind res_mbind]. destruct (Z.eqb md USER);
      cbn [mbind res_mbind snd]; intros [= <-] k0 Hk; cbn [lock_table];
      eapply release_keys_defined; eauto.
  - unfold check_lock.
    destruct (_desired_lock (handlers σ t)) as [[[k md] op]|];
      [|cbn [mbind res_mbind snd]; now intros [= <-]].
    destruct (table_get (lock_table σ) k) as [lock|]; [|discriminate].
    destruct (hold_lock lock t md);
      [|cbn [mbind res_mbind snd]; now intros [= <-]].
    assert (Hop : forall k0, table_get (lock_table σ) k0 <> None ->
              table_get (lock_table (snd (run_op_closure σ t op))) k0 <> None).
    { intros k0 Hk. destruct op as [k1 v1|k1]; simpl.
      - unfold perform_put.
        destruct (request_lock _ t ExclusiveLock) as [[] lock'];
          cbn [snd lock_table]; now apply table_set_defined.
      - unfold perform_get.
        destruct (request_lock _ t SharedLock) as [[] lock'];
          [destruct (store_get (store σ) k1)|];
          cbn [snd lock_table]; now apply table_set_defined. }
    destruct (run_op_closure σ t op) as [v σ1]. cbn [snd] in Hop.
    destruct (truthy v); cbn [mbind res_mbind snd]; intros [= <-]; exact Hop.
Qed.

(** A commit or an abort creates no lock. *)
Lemma run_call_release_no_new_key (σ σ' : State) (c : Call) :
  (exists t, c = CallCommit t) \/ (exists t md, c = CallAbort t md) ->
  run_call σ c = Ok σ' ->
  forall k, table_get (lock_table σ') k <> None ->
            table_get (lock_table σ) k <> None.
Proof.
  intros [[t ->]|(t & md & ->)]; simpl.
  - unfold commit, release_and_grant_locks.
    destruct (release_keys _ _ _) as [tb|] eqn:E; [|discriminate].
    cbn [mbind res_mbind snd]. intros [= <-] k0 Hk. cbn [lock_table] in Hk.
    eapply release_keys_defined_inv; eauto.
  - unfold abort, release_and_grant_locks.
    destruct (undo_loop _ _ _) as [log s]. cbn [handlers lock_table].
    rewrite set_handler_same. cbn [_acquired_locks].
    destruct (release_keys _ _ _) as [tb|] eqn:E; [|discriminate].
    cbn [mbind res_mbind]. destruct (Z.eqb md USER);
      cbn [mbind res_mbind snd]; intros [= <-] k0 Hk; cbn [lock_table] in Hk;
      eapply release_keys_defined_inv; eauto.
Qed.

(** X14. The lock table never loses a key: over any run of handler calls
    that does not raise, every key that had a lock still has one; and a run
    made of commits and aborts only creates no lock, so that it leaves the
    table with exactly the keys it had.  Nothing is said of the order in
    which the dictionary is walked. *)
Theorem lock_table_never_loses_a_key (calls : list Call) (σ σ' : State) :
  run_calls σ calls = Ok σ' ->
  (forall k, table_get (lock_table σ) k <> None ->
             table_get (lock_table σ') k <> None) /\
  ((forall c, c ∈ calls ->
      (exists t, c = CallCommit t) \/ (exists t md, c = CallAbort t md)) ->
   forall k, table_get (lock_table σ') k <> None ->
             table_get (lock_table σ) k <> None).
Proof.
  revert σ. induction calls as [|c calls IH]; simpl; intros σ Hrun.
  - injection Hrun as <-. split; auto.
  - destruct (run_call σ c) as [σ1|] eqn:E; [|discriminate].
    cbn [mbind res_mbind] in Hrun. destruct (IH _ Hrun) as [Hkeep Hnew].
    split.
    + intros k Hk. apply Hkeep. eapply run_call_keeps_keys; eauto.
    + intros Hrel k Hk.
      eapply run_call_release_no_new_key; [apply Hrel; left | exact E |].
      apply Hnew; [|exact Hk]. intros c' Hc'. apply Hrel. now right.
Qed.

(** X14 on the table with the key written by 7, over calls of 1 and 7. *)
Lemma lock_table_never_loses_a_key_witness :
  table_get (lock_table held_state) "a" <> None /\
  exists σ',
    run_calls held_state
      [CallPut 1 "b" "1"; CallGet 1 "a"; CallCommit 7; CallCheck 1; CallAbort 1 USER]
      = Ok σ' /\
    table_get (lock_table σ') "a" <> None.
Proof.
  split; [vm_compute; discriminate|].
  eexists. split; [vm_compute; reflexivity|].
  refine (proj1 (lock_table_never_loses_a_key
            [CallPut 1 "b" "1"; CallGet 1 "a"; CallCommit 7; CallCheck 1;
             CallAbort 1 USER] held_state _ _) "a" _).
  - vm_compute; reflexivity.
  - vm_compute. discriminate.
Defined.

(** ** What [detect_deadlocks] finds *)

Lemma detect_loop_first (σ : State) (x : Z) :
  forall items : list (key * Lock),
    detect_loop σ items = Some x ->
    exists before k l after t t2,
      items = before ++ (k, l) :: after /\
      chain_closes σ k l t t2 /\
      x = Z.min (_xid (handlers σ t)) (_xid (handlers σ t2)) /\
      forall k' l' t' t2', (k', l') ∈ before ->
                           ~ chain_closes σ k' l' t' t2'.
Proof.
  induction items as [|[k l] items IH]; simpl; [discriminate|].
  destruct (detect_step σ k l) as [[y|]|] eqn:E.
  - intros [= ->]. apply detect_step_closes in E as (t & t2 & Hc & ->).
    exists [], k, l, items, t, t2. repeat split; auto.
    intros k' l' t' t2' H. inversion H.
  - intros H. destruct (IH H) as (before & k0 & l0 & after & t & t2 & -> & Hc & Hx & Hb).
    exists ((k, l) :: before), k0, l0, after, t, t2. repeat split; auto.
    intros k' l' t' t2' Hin Hc'.
    apply elem_of_cons in Hin as [[= -> ->]|Hin]; [|now apply (Hb k' l' t' t2')].
    assert (detect_step σ k l
            = Ok (Some (Z.min (_xid (handlers σ t')) (_xid (handlers σ t2')))))
      by (apply detect_step_closes; eauto).
    congruence.
  - intros H. destruct (IH H) as (before & k0 & l0 & after & t & t2 & -> & Hc & Hx & Hb).
    exists ((k, l) :: before), k0, l0, after, t, t2. repeat split; auto.
    intros k' l' t' t2' Hin Hc'.
    apply elem_of_cons in Hin as [[= -> ->]|Hin]; [|now apply (Hb k' l' t' t2')].
    assert (detect_step σ k l
            = Ok (Some (Z.min (_xid (handlers σ t')) (_xid (handlers σ t2')))))
      by (apply detect_step_closes; eauto).
    congruence.
Qed.

(** X2. What [detect_deadlocks] finds is a chain of two hops.  It answers
    [None] exactly when for no key of the table the first holder of its
    lock desires a key whose lock's first holder desires the first key;
    otherwise it answers for the first such key in the order of the table,
    with the smaller of the ids of the two first holders (which may be one
    and the same handler).  Holders other than the first and longer chains
    are not looked at; a lock without holders, a first holder that desires
    nothing and a desired key without lock are skipped. *)
Theorem detect_deadlocks_first_closing_chain (σ : State) :
  (detect_deadlocks σ = None <->
   forall k l t t2, (k, l) ∈ lock_table σ -> ~ chain_closes σ k l t t2) /\
  (forall x, detect_deadlocks σ = Some x ->
     exists before k l after t t2,
       lock_table σ = before ++ (k, l) :: after /\
       chain_closes σ k l t t2 /\
       x = Z.min (_xid (handlers σ t)) (_xid (handlers σ t2)) /\
       forall k' l' t' t2', (k', l') ∈ before ->
                            ~ chain_closes σ k' l' t' t2').
Proof.
  split; [apply detect_deadlocks_none|].
  intros x. apply detect_loop_first.
Qed.

(** ** Upgrades, crossed waits and aborts *)

Lemma table_get_elem (tb : list (key * Lock)) (k : key) (l : Lock) :
  table_get tb k = Some l -> (k, l) ∈ tb.
Proof.
  induction tb as [|[k0 l0] tb IH]; simpl; [discriminate|].
  destruct (String.eqb_spec k0 k) as [->|Hne].
  - intros [= ->]. left.
  - intros H. right. now apply IH.
Qed.

(** X15. An upgrade waits for the other reader.  Two handlers [t] and [u]
    hold the lock of [k] in shared mode with nobody queued.  A put of [k]
    by [t] answers [None]: [t] gives up its hold and is queued in exclusive
    mode, leaving [u] the only holder.  When [u], which lists [k] among its
    acquired keys, commits, the lock passes to [t] alone in exclusive mode,
    and the next poll of [t] performs the write and answers ['Success']. *)
Theorem upgrade_waits_for_other_reader (σ : State) (t u : tid) (k : key)
    (v : value) (l : Lock) :
  u <> t ->
  table_get (lock_table σ) k = Some l ->
  (transactions l = [t; u] \/ transactions l = [u; t]) ->
  mode l = Some SharedLock -> queue_of l = [] ->
  k ∈ _acquired_locks (handlers σ u) ->
  (forall k', k' ∈ _acquired_locks (handlers σ u) ->
              table_get (lock_table σ) k' <> None) ->
  let σ1 := snd (perform_put σ t k v) in
  fst (perform_put σ t k v) = None /\
  table_get (lock_table σ1) k
    = Some (mkLock [u] (Some SharedLock)
              (Some [mkRequestLock t ExclusiveLock])) /\
  exists σ2,
    commit σ1 u = Ok ("Transaction Completed", σ2) /\
    table_get (lock_table σ2) k
      = Some (mkLock [t] (Some ExclusiveLock) (Some [])) /\
    exists σ3,
      check_lock σ2 t = Ok (Some "Success", σ3) /\
      _desired_lock (handlers σ3 t) = None /\
      store_get (store σ3) k = Some v.
Proof.
  intros Hut Hget Htr Hm Hq Hk Hdef σ1. subst σ1.
  set (l1 := mkLock [u] (Some SharedLock)
                    (Some [mkRequestLock t ExclusiveLock])).
  set (l2 := mkLock [t] (Some ExclusiveLock) (Some [])).
  assert (Hreq : request_lock l t ExclusiveLock = (false, l1)).
  { unfold request_lock, can_acquire_lock. rewrite Hm.
    unfold queue_of in Hq.
    destruct Htr as [-> | ->]; simpl; rewrite Nat.eqb_refl;
      destruct (Nat.eqb_spec u t) as [E|_]; try congruence; simpl;
      unfold _append_request; simpl;
      destruct (request_queue l) as [[|r q]|]; try discriminate; reflexivity. }
  rewrite (perform_put_refused σ t k v l l1 Hget Hreq). cbn [fst snd].
  set (σ1 := mkState _ _ _).
  assert (Hget1 : table_get (lock_table σ1) k = Some l1)
    by (subst σ1; cbn [lock_table]; apply table_get_set_same).
  assert (Hd1 : _desired_lock (handlers σ1 t)
                = Some (k, ExclusiveLock, OpPut k v))
    by (subst σ1; cbn [handlers]; now rewrite set_handler_same).
  split; [reflexivity|]. split; [exact Hget1|].
  assert (Hacq1 : _acquired_locks (handlers σ1 u) = _acquired_locks (handlers σ u)).
  { subst σ1. cbn [handlers]. rewrite set_handler_other by exact Hut. reflexivity. }
  destruct (release_keys_total u (_acquired_locks (handlers σ u)) (lock_table σ1))
    as [tb2 Hrel].
  { intros k' Hk'. subst σ1. cbn [lock_table]. apply table_set_defined. auto. }
  assert (Hrel1 : release_lock l1 u = l2).
  { subst l1 l2. unfold release_lock. simpl. now rewrite Nat.eqb_refl. }
  assert (Hget2 : table_get tb2 k = Some l2).
  { rewrite <- Hrel1.
    eapply (release_keys_released u k l1); [| exact Hk | exact Hget1 | exact Hrel].
    rewrite Hrel1. subst l2. unfold release_lock. simpl.
    destruct (Nat.eqb_spec t u) as [E|_]; [congruence | reflexivity]. }
  unfold commit, release_and_grant_locks. rewrite Hacq1, Hrel.
  cbn [mbind res_mbind]. eexists. split; [reflexivity|].
  set (σ2 := mkState tb2 _ _).
  split; [exact Hget2|].
  assert (Hd2 : _desired_lock (handlers σ2 t)
                = Some (k, ExclusiveLock, OpPut k v)).
  { subst σ2. cbn [handlers]. rewrite set_handler_other by congruence. exact Hd1. }
  assert (Hhold : hold_lock l2 t ExclusiveLock = true)
    by (subst l2; unfold hold_lock; simpl; now rewrite Nat.eqb_refl).
  unfold check_lock. rewrite Hd2.
  change (lock_table σ2) with tb2. rewrite Hget2, Hhold.
  cbn [run_op_closure].
  rewrite (perform_put_granted_eq σ2 t k v l2 l2 Hget2
             (held_request_changes_nothing l2 t ExclusiveLock Hhold)).
  cbn [truthy String.eqb negb]. eexists. split; [reflexivity|].
  cbn [handlers store]. rewrite set_handler_same. cbn [_desired_lock].
  split; [reflexivity|]. now rewrite store_get_put, String.eqb_refl.
Qed.

(** X15 on the two readers of ["a"], the first of which asks to write. *)
Lemma upgrade_waits_for_other_reader_witness :
  fst (perform_put shared_state 1 "a" "9") = None /\
  exists σ2 σ3,
    commit (snd (perform_put shared_state 1 "a" "9")) 2
      = Ok ("Transaction Completed", σ2) /\
    check_lock σ2 1 = Ok (Some "Success", σ3) /\
    store_get (store σ3) "a" = Some "9".
Proof.
  destruct (upgrade_waits_for_other_reader shared_state 1 2 "a" "9"
              (mkLock [1; 2] (Some SharedLock) None))
    as (Hnone & _ & σ2 & Hc & _ & σ3 & Hp & _ & Hs).
  - discriminate.
  - vm_compute; reflexivity.
  - now left.
  - reflexivity.
  - reflexivity.
  - vm_compute. left.
  - intros k' Hk'. vm_compute in Hk'.
    apply list_elem_of_singleton in Hk' as ->. vm_compute. discriminate.
  - split; [exact Hnone|]. exists σ2, σ3. repeat split; assumption.
Defined.

(** X16. Crossed waits are found.  Handler [t] alone holds the lock of [k1]
    in exclusive mode and handler [u] alone that of [k2].  When [t] asks to
    read [k2] and [u] asks to read [k1], both are answered [None], and
    [detect_deadlocks] then names a transaction. *)
Theorem crossed_waits_are_detected (σ : State) (t u : tid) (k1 k2 : key)
    (l1 l2 : Lock) :
  t <> u ->
  table_get (lock_table σ) k1 = Some l1 ->
  transactions l1 = [t] -> mode l1 = Some ExclusiveLock ->
  table_get (lock_table σ) k2 = Some l2 ->
  transactions l2 = [u] -> mode l2 = Some ExclusiveLock ->
  let σ1 := snd (perform_get σ t k2) in
  let σ2 := snd (perform_get σ1 u k1) in
  fst (perform_get σ t k2) = None /\
  fst (perform_get σ1 u k1) = None /\
  exists x, detect_deadlocks σ2 = Some x.
Proof.
  intros Htu Hg1 Htr1 Hm1 Hg2 Htr2 Hm2 σ1 σ2. subst σ2 σ1.
  assert (Hk : k1 <> k2) by (intros ->; congruence).
  assert (Ht2 : t ∉ transactions l2).
  { rewrite Htr2. intros H. apply list_elem_of_singleton in H. congruence. }
  assert (Hu1 : u ∉ transactions l1).
  { rewrite Htr1. intros H. apply list_elem_of_singleton in H. congruence. }
  destruct (exclusive_refuses l2 t SharedLock Hm2) as (l2' & Hreq2 & Htr2' & _);
    [rewrite Htr2; discriminate | exact Ht2 |].
  rewrite (perform_get_refused σ t k2 l2 l2' Hg2 Hreq2). cbn [fst snd].
  set (σ1 := mkState _ _ _).
  assert (Hg1' : table_get (lock_table σ1) k1 = Some l1).
  { subst σ1. cbn [lock_table]. now rewrite table_get_set_other. }
  destruct (exclusive_refuses l1 u SharedLock Hm1) as (l1' & Hreq1 & Htr1' & _);
    [rewrite Htr1; discriminate | exact Hu1 |].
  rewrite (perform_get_refused σ1 u k1 l1 l1' Hg1' Hreq1). cbn [fst snd].
  set (σ2 := mkState _ _ _).
  split; [reflexivity|]. split; [reflexivity|].
  destruct (detect_deadlocks σ2) as [x|] eqn:E; [eauto|]. exfalso.
  pose proof (proj1 (detect_deadlocks_none σ2) E) as Hnone.
  apply (Hnone k1 l1' t u).
  - apply table_get_elem. subst σ2. cbn [lock_table]. apply table_get_set_same.
  - exists k2, l2'. unfold first_current_transaction, desired_key.
    rewrite Htr1', Htr1, Htr2', Htr2. subst σ2 σ1. cbn [handlers lock_table].
    rewrite set_handler_same, set_handler_other, set_handler_same by exact Htu.
    cbn [_desired_lock].
    rewrite table_get_set_other by congruence.
    rewrite table_get_set_same. repeat split.
Qed.

(** X16 on the two writers of scenario 4. *)
Lemma crossed_waits_are_detected_witness :
  exists x,
    detect_deadlocks
      (snd (perform_get (snd (perform_get two_writers_state 1 "b")) 2 "a"))
    = Some x.
Proof.
  destruct (crossed_waits_are_detected two_writers_state 1 2 "a" "b"
              (mkLock [1] (Some ExclusiveLock) None)
              (mkLock [2] (Some ExclusiveLock) None))
    as (_ & _ & x & Hx).
  - discriminate.
  - vm_compute; reflexivity.
  - reflexivity.
  - reflexivity.
  - vm_compute; reflexivity.
  - reflexivity.
  - reflexivity.
  - exists x. exact Hx.
Defined.


